(** * expo-camera (next): argument preparation, callback registry and
      event throttling of [packages/expo-camera/src/next/Camera.tsx]

    The development embeds the module-level helpers of [Camera.tsx]
    ([ensurePictureOptions], [ensureRecordingOptions], [_onPictureSaved]),
    the static availability queries of the [Camera] class and the
    instance method [_onObjectDetected] as Rocq functions over explicit
    state, and states the properties of the design document about them.
    The command bridge of the design document, whose sources are not at
    hand, is a state machine written after the document's sections 3 to 5.

    Conventions.  A callback is a function handle; invoking it is recorded,
    and whether the invocation returns or throws is an input of the event
    that causes it.  A JavaScript object used as a dictionary is a finite
    map.  Clock readings are integers, in milliseconds. *)

From Stdlib Require Import ZArith QArith Lia List Sorted Ascii.
From stdpp Require Import base gmap strings list.

Local Open Scope Z_scope.
Local Set Warnings "-register-all".

(** ** JavaScript values *)

Module Js.

(** A JavaScript value.  Numbers are rationals plus [NaN]; every finite
    double is a rational, and the counter of [Camera.tsx] only holds
    integers.  A function object is identified by a handle. *)
Inductive value :=
| VUndefined
| VNull
| VBool (b : bool)
| VNum (q : Q)
| VNaN
| VStr (s : string)
| VFun (f : nat)
| VObj (o : gmap string value).

(** [typeof v] *)
Definition typeof (v : value) : string :=
  match v with
  | VUndefined => "undefined"
  | VNull => "object"
  | VBool _ => "boolean"
  | VNum _ | VNaN => "number"
  | VStr _ => "string"
  | VFun _ => "function"
  | VObj _ => "object"
  end.

(** ToBoolean: what [if (v)] and [!v] test. *)
Definition truthy (v : value) : bool :=
  match v with
  | VUndefined | VNull | VNaN => false
  | VBool b => b
  | VNum q => negb (Qnum q =? 0)
  | VStr s => negb (String.eqb s "")
  | VFun _ | VObj _ => true
  end.

(** Property read [o.k] on a plain object: an absent property reads as
    [undefined]. *)
Definition get (o : gmap string value) (k : string) : value :=
  default VUndefined (o !! k).

(** The property table of a value known to be a non-null object. *)
Definition fields (v : value) : gmap string value :=
  match v with
  | VObj o => o
  | _ => ∅
  end.

(** Errors a call can complete with.  [InvalidArgument] belongs to the
    taxonomy of the design document; [TypeError] is what calling a
    non-function raises; [UnavailabilityError] is the class imported from
    [expo-modules-core]; [CodedError] stands for a rejection coming from
    the native side. *)
Inductive error :=
| InvalidArgument
| TypeError
| UnavailabilityError (moduleName propertyName : string)
| CodedError (code : string).

(** How a synchronous call completes. *)
Inductive completion (A : Type) :=
| Normal (a : A)
| Throw (e : error).
Arguments Normal {A} a.
Arguments Throw {A} e.

(** How the invocation of a callback of the user ends. *)
Inductive outcome :=
| Returns
| Throws (e : error).

Definition returned (r : outcome) : bool :=
  match r with
  | Returns => true
  | Throws _ => false
  end.

End Js.

(** ** Module-level state and helpers of [Camera.tsx] *)

Module Camera.
Import Js.

(** [EventThrottleMs] *)
Definition EventThrottleMs : Z := 500.

(** The two module-level variables [_PICTURE_SAVED_CALLBACKS] and
    [_GLOBAL_PICTURE_ID].  The counter is an integer without bound: a
    JavaScript number counts exactly up to 2^53. *)
Record module_state := {
  _PICTURE_SAVED_CALLBACKS : gmap Z value;
  _GLOBAL_PICTURE_ID : Z
}.

(** [const _PICTURE_SAVED_CALLBACKS = {}; let _GLOBAL_PICTURE_ID = 1;] *)
Definition initial : module_state :=
  {| _PICTURE_SAVED_CALLBACKS := ∅; _GLOBAL_PICTURE_ID := 1 |}.

(** [ensurePictureOptions(options)]: returns the prepared options record
    and the new module state.  The source updates the object it was given
    in place and returns it; the record here is the content of that object
    when the call returns. *)
Definition ensurePictureOptions (options : value) (st : module_state)
  : gmap string value * module_state :=
  let pictureOptions :=
    if negb (truthy options) || negb (String.eqb (typeof options) "object")
    then ∅ else fields options in
  let pictureOptions :=
    if negb (truthy (get pictureOptions "quality"))
    then <["quality" := VNum 1]> pictureOptions
    else pictureOptions in
  if truthy (get pictureOptions "onPictureSaved") then
    let id := _GLOBAL_PICTURE_ID st in
    (<["fastMode" := VBool true]>
       (<["id" := VNum (inject_Z id)]> pictureOptions),
     {| _PICTURE_SAVED_CALLBACKS :=
          <[id := get pictureOptions "onPictureSaved"]>
            (_PICTURE_SAVED_CALLBACKS st);
        _GLOBAL_PICTURE_ID := id + 1 |})
  else (pictureOptions, st).

(** [ensureRecordingOptions(options)] *)
Definition ensureRecordingOptions (options : value) : value :=
  let recordingOptions := if truthy options then options else VObj ∅ in
  if negb (truthy recordingOptions)
     || negb (String.eqb (typeof recordingOptions) "object")
  then VObj ∅
  else recordingOptions.

(** [_onPictureSaved({ nativeEvent: { id, data } })].  [result] is how
    the invocation of the callback ends, if there is one.  The list holds
    the callback invocations made by the call, as (function, argument);
    the completion is [Throw] when the call is left by an exception: of
    the callback, which skips the [delete] that follows it, or the
    [TypeError] of calling what is not a function. *)
Definition _onPictureSaved (id : Z) (data : value) (result : outcome)
    (st : module_state) : list (nat * value) * completion module_state :=
  let callback := default VUndefined (_PICTURE_SAVED_CALLBACKS st !! id) in
  if truthy callback then
    match callback with
    | VFun f =>
        ([(f, data)],
         match result with
         | Returns =>
             Normal {| _PICTURE_SAVED_CALLBACKS :=
                         delete id (_PICTURE_SAVED_CALLBACKS st);
                       _GLOBAL_PICTURE_ID := _GLOBAL_PICTURE_ID st |}
         | Throws e => Throw e
         end)
    | _ => ([], Throw TypeError)
    end
  else ([], Normal st).

(** The record of [ensurePictureOptions] after its first [if]. *)
Definition with_quality (o : gmap string value) : gmap string value :=
  if truthy (get o "quality") then o else <["quality" := VNum 1]> o.

(** A value that is a non-null object: what the two guards
    [!options || typeof options !== 'object'] let through. *)
Definition is_object (v : value) : bool :=
  truthy v && String.eqb (typeof v) "object".

(** What [Object.preventExtensions] (or [Object.seal]) and
    [Object.freeze] make of an object the caller passes. *)
Inductive protection :=
| Extensible
| NonExtensible
| Frozen.

(** Whether the assignment [o.k = v] of strict-mode code raises a
    [TypeError]: a frozen object takes no write, one that is not
    extensible takes no new property. *)
Definition write_fails (p : protection) (o : gmap string value) (k : string)
  : bool :=
  match p with
  | Extensible => false
  | NonExtensible => bool_decide (o !! k = None)
  | Frozen => true
  end.

(** The argument-preparation step of [takePictureAsync] as the caller
    sees it: the body of [ensurePictureOptions] statement by statement,
    on an argument with protection [p], with the module state at the
    moment the call is left.  The empty record that replaces an argument
    that is no object is extensible. *)
Definition prepare_picture (p : protection) (options : value)
    (st : module_state) : completion (gmap string value) * module_state :=
  let '(pictureOptions, p) :=
    if negb (truthy options) || negb (String.eqb (typeof options) "object")
    then (∅, Extensible) else (fields options, p) in
  if negb (truthy (get pictureOptions "quality"))
     && write_fails p pictureOptions "quality"
  then (Throw TypeError, st)
  else
    let pictureOptions :=
      if negb (truthy (get pictureOptions "quality"))
      then <["quality" := VNum 1]> pictureOptions
      else pictureOptions in
    if truthy (get pictureOptions "onPictureSaved") then
      let id := _GLOBAL_PICTURE_ID st in
      let st' :=
        {| _PICTURE_SAVED_CALLBACKS :=
             <[id := get pictureOptions "onPictureSaved"]>
               (_PICTURE_SAVED_CALLBACKS st);
           _GLOBAL_PICTURE_ID := id + 1 |} in
      if write_fails p pictureOptions "id" then (Throw TypeError, st')
      else
        let pictureOptions := <["id" := VNum (inject_Z id)]> pictureOptions in
        if write_fails p pictureOptions "fastMode" then (Throw TypeError, st')
        else (Normal (<["fastMode" := VBool true]> pictureOptions), st')
    else (Normal pictureOptions, st).

(** The argument-preparation step of [recordAsync]:
    [ensureRecordingOptions] writes nothing and calls nothing. *)
Definition prepare_recording (options : value) : completion value :=
  Normal (ensureRecordingOptions options).

(** What the JavaScript side does with the module state: a call of
    [takePictureAsync], which runs [ensurePictureOptions] on its argument,
    or an [onPictureSaved] event of the native view, which runs
    [_onPictureSaved]; [result] is how the callback ends if the event
    invokes one. *)
Inductive action :=
| TakePicture (options : value)
| PictureSaved (id : Z) (data : value) (result : outcome).

(** One action: the callback invocations it makes, each with the id of
    the event that caused it and with how it ended, and the next module
    state.  An exception that leaves [_onPictureSaved] propagates to the
    event dispatcher and leaves the module state as it was. *)
Definition step (a : action) (st : module_state)
  : list (Z * nat * value * outcome) * module_state :=
  match a with
  | TakePicture options => ([], (ensurePictureOptions options st).2)
  | PictureSaved id data result =>
      let '(calls, c) := _onPictureSaved id data result st in
      (map (λ c, (id, c.1, c.2, result)) calls,
       match c with
       | Normal st' => st'
       | Throw _ => st
       end)
  end.

Fixpoint run (l : list action) (st : module_state)
  : list (Z * nat * value * outcome) * module_state :=
  match l with
  | [] => ([], st)
  | a :: l' =>
      let '(log, st') := step a st in
      let '(log', st'') := run l' st' in
      (log ++ log', st'')
  end.

(** The invocations of a log that were caused by events carrying [id]. *)
Definition invocations_for (id : Z) (log : list (Z * nat * value * outcome))
  : list (Z * nat * value * outcome) :=
  filter (λ c, c.1.1.1 = id) log.

(** The invocations of a log that returned. *)
Definition completed (log : list (Z * nat * value * outcome))
  : list (Z * nat * value * outcome) :=
  filter (λ c, returned c.2 = true) log.

(** An argument that is an options object with a truthy
    [onPictureSaved]. *)
Definition carries_callback (options : value) : Prop :=
  ∃ o, options = VObj o ∧ truthy (get o "onPictureSaved") = true.

(** *** Static availability queries *)

(** A promise as its eventual state, over the type of rejection
    reasons. *)
Inductive promise (E A : Type) :=
| Fulfilled (a : A)
| Rejected (reason : E)
| Pending.
Arguments Fulfilled {E A} a.
Arguments Rejected {E A} reason.
Arguments Pending {E A}.

(** The module [CameraManager], restricted to the three methods the
    availability queries use.  A method is absent ([None]) or present
    with the promise a call of it returns, which may be rejected with any
    error. *)
Record CameraManager := {
  manager_isAvailableAsync : option (promise error bool);
  manager_getAvailableCameraTypesAsync : option (promise error (list string));
  manager_getAvailableVideoCodecsAsync : option (promise error (list string))
}.

(** [return await p] inside an [async] function: the function's promise
    is fulfilled with the value of [p], rejected with the reason of [p],
    unchanged, or stays pending as [p] does. *)
Definition await {A} (p : promise error A) : promise error A :=
  match p with
  | Fulfilled a => Fulfilled a
  | Rejected reason => Rejected reason
  | Pending => Pending
  end.

(** [static async isAvailableAsync()] *)
Definition isAvailableAsync (m : CameraManager) : promise error bool :=
  match manager_isAvailableAsync m with
  | None => Rejected (UnavailabilityError "expo-camera" "isAvailableAsync")
  | Some p => await p
  end.

(** [static async getAvailableCameraTypesAsync()] *)
Definition getAvailableCameraTypesAsync (m : CameraManager)
  : promise error (list string) :=
  match manager_getAvailableCameraTypesAsync m with
  | None =>
      Rejected (UnavailabilityError "expo-camera" "getAvailableCameraTypesAsync")
  | Some p => await p
  end.

(** [static async getAvailableVideoCodecsAsync()] *)
Definition getAvailableVideoCodecsAsync (m : CameraManager)
  : promise error (list string) :=
  match manager_getAvailableVideoCodecsAsync m with
  | None =>
      Rejected (UnavailabilityError "Camera" "getAvailableVideoCodecsAsync")
  | Some p => await p
  end.

(** Whether a promise is rejected with an [UnavailabilityError]. *)
Definition raises_unavailability {A} (p : promise error A) : Prop :=
  ∃ moduleName propertyName,
    p = Rejected (UnavailabilityError moduleName propertyName).

(** How the promise [q] of a query depends on the manager's [method]: an
    absent method gives the [UnavailabilityError] of the query; a present
    one gives its value, its rejection unchanged, or no settlement, as
    the method's promise has it. *)
Definition guarded {A} (moduleName propertyName : string)
    (method : option (promise error A)) (q : promise error A) : Prop :=
  (method = None → q = Rejected (UnavailabilityError moduleName propertyName))
  ∧ (∀ a, method = Some (Fulfilled a) → q = Fulfilled a)
  ∧ (∀ reason, method = Some (Rejected reason) → q = Rejected reason)
  ∧ (method = Some Pending → q = Pending)
  ∧ (raises_unavailability q
     ↔ method = None
       ∨ ∃ m p, method = Some (Rejected (UnavailabilityError m p)))
  ∧ (∀ a, q = Fulfilled a ↔ method = Some (Fulfilled a)).

(** *** Throttling of object-detection events *)

(** What [_onObjectDetected] needs of a native event: the property key
    its [type] field indexes the caches with, and [JSON.stringify]. *)
Class NativeEvent (Event : Type) := {
  event_type : Event → string;
  JSON_stringify : Event → string
}.

(** The two per-instance caches; a [Date] is its [getTime()], in
    milliseconds. *)
Record instance := {
  _lastEvents : gmap string string;
  _lastEventsTimes : gmap string Z
}.

(** A freshly constructed component: both caches are [{}]. *)
Definition mounted : instance :=
  {| _lastEvents := ∅; _lastEventsTimes := ∅ |}.

Section ObjectDetected.
Context {Event : Type} `{NativeEvent Event}.

(** The condition of the early [return]: a non-empty string and a
    [Date] are the truthy entries of the two caches. *)
Definition throttled (nativeEvent : Event) (now : Z) (this : instance)
  : bool :=
  let type := event_type nativeEvent in
  match _lastEvents this !! type, _lastEventsTimes this !! type with
  | Some last, Some lastTime =>
      negb (String.eqb last "")
      && String.eqb (JSON_stringify nativeEvent) last
      && (now - lastTime <? EventThrottleMs)
  | _, _ => false
  end.

(** [cache[type] = v] on an object created as [{}]: [__proto__] names
    the accessor of the prototype, and assigning a string or a [Date]
    through it adds no entry. *)
Definition store {A} (type : string) (v : A) (cache : gmap string A)
  : gmap string A :=
  if String.eqb type "__proto__" then cache else <[type := v]> cache.

(** [_onObjectDetected(callback)({ nativeEvent })].  [now] is the clock
    read by the throttle test, [result] how the invocation of the
    callback ends, and [stamp] the clock read after the callback has
    returned.  The result is the callback invocations of the call and the
    instance when the call is left: an exception of the callback skips
    the two assignments that follow it. *)
Definition _onObjectDetected (callback : option nat) (nativeEvent : Event)
    (result : outcome) (now stamp : Z) (this : instance)
  : list (nat * Event) * instance :=
  let type := event_type nativeEvent in
  if throttled nativeEvent now this then ([], this)
  else
    match callback with
    | Some f =>
        ([(f, nativeEvent)],
         match result with
         | Returns =>
             {| _lastEvents :=
                  store type (JSON_stringify nativeEvent) (_lastEvents this);
                _lastEventsTimes := store type stamp (_lastEventsTimes this) |}
         | Throws _ => this
         end)
    | None => ([], this)
    end.

(** One event reaching a handler built by [render]. *)
Record detection := {
  det_callback : option nat;
  det_event : Event;
  det_outcome : outcome;
  det_now : Z;
  det_stamp : Z
}.

(** The events delivered so far, that is handed to a callback that
    returned, with the time read at that moment, newest first, and the
    instance after the detections of [l], oldest first. *)
Fixpoint detect (l : list detection) (log : list (Event * Z))
    (this : instance) : list (Event * Z) * instance :=
  match l with
  | [] => (log, this)
  | d :: l' =>
      let '(calls, this') :=
        _onObjectDetected (det_callback d) (det_event d) (det_outcome d)
          (det_now d) (det_stamp d) this in
      detect l'
        ((if returned (det_outcome d)
          then map (λ c, (c.2, det_stamp d)) calls else []) ++ log)
        this'
  end.

(** The last delivered event of type [t] in a log, newest first. *)
Fixpoint last_delivered (t : string) (log : list (Event * Z))
  : option (Event * Z) :=
  match log with
  | [] => None
  | (e, tm) :: log' =>
      if String.eqb (event_type e) t then Some (e, tm)
      else last_delivered t log'
  end.

End ObjectDetected.

(** Every key of the registry is an identifier already handed out. *)
Definition keys_below (st : module_state) : Prop :=
  ∀ k : Z, _GLOBAL_PICTURE_ID st ≤ k → _PICTURE_SAVED_CALLBACKS st !! k = None.

(** An identifier that was handed out and whose entry is gone. *)
Definition spent (id : Z) (st : module_state) : Prop :=
  id < _GLOBAL_PICTURE_ID st ∧ _PICTURE_SAVED_CALLBACKS st !! id = None.

(** A bar code event with its two string fields, and a serializer for
    it that writes the fields between quotes without escaping them: an
    instance to run the handler on. *)
Record barcode := { bc_type : string; bc_data : string }.

Definition quoted (s : string) : string :=
  String "034"%char (s +:+ String "034"%char "").

Definition barcode_json (b : barcode) : string :=
  "{" +:+ quoted "type" +:+ ":" +:+ quoted (bc_type b) +:+ ","
      +:+ quoted "data" +:+ ":" +:+ quoted (bc_data b) +:+ "}".

#[export] Instance barcode_event : NativeEvent barcode :=
  {| event_type := bc_type; JSON_stringify := barcode_json |}.

(** The caches agree with a log of deliveries: the entries of a type are
    the serialization and the time of its last delivered event, and there
    is no entry for [__proto__]. *)
Definition caches_follow `{NativeEvent Event} (log : list (Event * Z))
    (this : instance) : Prop :=
  ∀ t : string,
    _lastEvents this !! t
      = (if String.eqb t "__proto__" then None
         else (λ d, JSON_stringify d.1) <$> last_delivered t log)
    ∧ _lastEventsTimes this !! t
      = (if String.eqb t "__proto__" then None
         else snd <$> last_delivered t log).

(** The suppression condition: an event of the same type, other than
    [__proto__], was delivered before, the last one has the same
    serialization, and fewer than 500 ms have passed since. *)
Definition recently_delivered `{NativeEvent Event} (e : Event) (now : Z)
    (log : list (Event * Z)) : Prop :=
  event_type e ≠ "__proto__"
  ∧ ∃ e0 t0, last_delivered (event_type e) log = Some (e0, t0)
             ∧ JSON_stringify e = JSON_stringify e0
             ∧ now - t0 < 500.

End Camera.

(** ** The graphics command bridge of the design document *)

Module Bridge.

(** Modelled from the spec: the resolutions of a completion channel
    (sections 4.4 and 7).  The sources of the bridge (the files
    [EXGLNativeContext.cpp], [EXGLContextManager.cpp] and the others the
    CMake list names) are missing. *)
Inductive resolution :=
| Value (v : Z)
| ContextLost
| NativeGraphicsError (code : Z).

(** Modelled from the spec: the errors the Host API Surface returns at
    invocation time (section 7); the surface is missing. *)
Inductive api_error :=
| UnknownContext
| ContextLostAtCall.

(** Modelled from the spec: a Command (section 3) with its target context,
    operation code, sequence number and whether it has a completion
    channel; the type is missing. *)
Record command := {
  cmd_context : nat;
  cmd_op : string;
  cmd_seq : nat;
  cmd_channel : bool
}.

(** Modelled from the spec: what an observer of the bridge sees, oldest
    first; the bridge is missing. *)
Inductive event :=
| Submitted (c : command)
| Executed (c : command)
| Resolved (c : command) (r : resolution)
| Disposed (id : nat)
| Released (id : nat).

(** Modelled from the spec: a GraphicsContext (section 3) reduced to its
    FIFO command queue, its next sequence number and its disposed flag;
    the type is missing. *)
Record context := {
  queue : list command;
  next_seq : nat;
  disposed : bool
}.

(** Modelled from the spec: the Context Registry (section 4.3) with the
    live contexts, the next identifier and the events so far; the
    registry is missing. *)
Record bridge := {
  contexts : gmap nat context;
  next_context_id : nat;
  trace : list event
}.

Definition empty_bridge : bridge :=
  {| contexts := ∅; next_context_id := 0; trace := [] |}.

(** Modelled from the spec: [create() -> contextId] (section 4.3),
    identifiers assigned monotonically; the function is missing. *)
Definition create (b : bridge) : nat * bridge :=
  let id := next_context_id b in
  (id,
   {| contexts :=
        <[id := {| queue := []; next_seq := 0; disposed := false |}]>
          (contexts b);
      next_context_id := S id;
      trace := trace b |}).

(** Modelled from the spec: a deferred [invoke] (section 4.2): it fails at
    once on an unknown or disposed context, and otherwise builds a
    Command with the next sequence number of the context and appends it
    to the queue; the function is missing. *)
Definition submit (id : nat) (op : string) (channel : bool) (b : bridge)
  : option api_error * bridge :=
  match contexts b !! id with
  | None => (Some UnknownContext, b)
  | Some ctx =>
      if disposed ctx then (Some ContextLostAtCall, b)
      else
        let cmd := {| cmd_context := id; cmd_op := op;
                      cmd_seq := next_seq ctx; cmd_channel := channel |} in
        (None,
         {| contexts :=
              <[id := {| queue := queue ctx ++ [cmd];
                         next_seq := S (next_seq ctx);
                         disposed := false |}]> (contexts b);
            next_context_id := next_context_id b;
            trace := trace b ++ [Submitted cmd] |})
  end.

(** Modelled from the spec: resolving the completion channel of a
    command, if it has one; the function is missing. *)
Definition resolve (cmd : command) (r : resolution) : list event :=
  if cmd_channel cmd then [Resolved cmd r] else [].

(** Modelled from the spec: one step of the Render Thread Dispatcher for
    a context (section 4.4).  It takes the head of the queue; on a live
    context it executes the command and resolves its channel with the
    outcome of the native call ([inl] a value, [inr] a native error
    code); on a disposed context it resolves the channel with
    [ContextLost] and executes nothing.  The dispatcher is missing. *)
Definition dispatch (id : nat) (native : Z + Z) (b : bridge) : bridge :=
  match contexts b !! id with
  | None => b
  | Some ctx =>
      match queue ctx with
      | [] => b
      | cmd :: rest =>
          {| contexts :=
               <[id := {| queue := rest; next_seq := next_seq ctx;
                          disposed := disposed ctx |}]> (contexts b);
             next_context_id := next_context_id b;
             trace :=
               trace b ++
                 (if disposed ctx then resolve cmd ContextLost
                  else Executed cmd ::
                       resolve cmd
                         match native with
                         | inl v => Value v
                         | inr code => NativeGraphicsError code
                         end) |}
      end
  end.

(** Modelled from the spec: the first phase of [destroy] (section 4.3),
    flagging the context disposed; the function is missing. *)
Definition dispose (id : nat) (b : bridge) : bridge :=
  match contexts b !! id with
  | None => b
  | Some ctx =>
      if disposed ctx then b
      else
        {| contexts :=
             <[id := {| queue := queue ctx; next_seq := next_seq ctx;
                        disposed := true |}]> (contexts b);
           next_context_id := next_context_id b;
           trace := trace b ++ [Disposed id] |}
  end.

(** Modelled from the spec: the Dispatcher draining a queue (section
    4.4), as [n] dispatcher steps; the function is missing. *)
Fixpoint drain (n : nat) (id : nat) (b : bridge) : bridge :=
  match n with
  | O => b
  | S n' => drain n' id (dispatch id (inl 0) b)
  end.

(** Modelled from the spec: the last phase of [destroy] (section 4.3):
    the native handle of a disposed context is released, and the
    identifier forgotten, once the queue is empty; the function is
    missing. *)
Definition release (id : nat) (b : bridge) : bridge :=
  match contexts b !! id with
  | None => b
  | Some ctx =>
      match queue ctx with
      | [] =>
          if disposed ctx then
            {| contexts := delete id (contexts b);
               next_context_id := next_context_id b;
               trace := trace b ++ [Released id] |}
          else b
      | _ :: _ => b
      end
  end.

(** Modelled from the spec: [destroy(contextId)] (section 4.3): flag,
    drain, release; a second call finds no context and does nothing.
    The function is missing. *)
Definition destroy (id : nat) (b : bridge) : bridge :=
  match contexts b !! id with
  | None => b
  | Some ctx => release id (drain (length (queue ctx)) id (dispose id b))
  end.

(** Modelled from the spec: what callers, the dispatcher and the
    registry can do, in any interleaving; the bridge is missing. *)
Inductive action :=
| Create
| Submit (id : nat) (op : string) (channel : bool)
| Dispatch (id : nat) (native : Z + Z)
| Dispose (id : nat)
| Release (id : nat)
| Destroy (id : nat).

Definition step (a : action) (b : bridge) : bridge :=
  match a with
  | Create => (create b).2
  | Submit id op channel => (submit id op channel b).2
  | Dispatch id native => dispatch id native b
  | Dispose id => dispose id b
  | Release id => release id b
  | Destroy id => destroy id b
  end.

Definition run (l : list action) (b : bridge) : bridge :=
  fold_left (λ b a, step a b) l b.

(** The commands of context [id] submitted, and executed, in a trace, in
    the order of the trace. *)
Definition submitted_of (id : nat) (t : list event) : list command :=
  omap (λ e, match e with
             | Submitted c => if decide (cmd_context c = id) then Some c else None
             | _ => None
             end) t.

Definition executed_of (id : nat) (t : list event) : list command :=
  omap (λ e, match e with
             | Executed c => if decide (cmd_context c = id) then Some c else None
             | _ => None
             end) t.

(** The part of a trace after the first [Disposed id]. *)
Fixpoint after_disposal (id : nat) (t : list event) : list event :=
  match t with
  | [] => []
  | Disposed id' :: t' =>
      if decide (id' = id) then t' else after_disposal id t'
  | _ :: t' => after_disposal id t'
  end.

#[export] Instance resolution_eq_dec : EqDecision resolution.
Proof. solve_decision. Defined.
#[export] Instance command_eq_dec : EqDecision command.
Proof. solve_decision. Defined.
#[export] Instance event_eq_dec : EqDecision event.
Proof. solve_decision. Defined.

(** The state of the bridge agrees with its trace on context [id]: the
    commands submitted are those executed, then those cancelled by a
    teardown, then those still queued; their sequence numbers count from
    zero; a context in the registry has an identifier already handed
    out and holds commands of its own only. *)
Definition consistent (id : nat) (b : bridge) : Prop :=
  ∃ (n : nat) (cancelled rest : list command),
    submitted_of id (trace b)
      = executed_of id (trace b) ++ cancelled ++ rest
    ∧ map cmd_seq (submitted_of id (trace b)) = seq 0 n
    ∧ match contexts b !! id with
      | Some ctx =>
          (id < next_context_id b)%nat
          ∧ rest = queue ctx
          ∧ n = next_seq ctx
          ∧ (disposed ctx = false → cancelled = [])
          ∧ Forall (λ cmd, cmd_context cmd = id) (queue ctx)
      | None =>
          rest = []
          ∧ ((next_context_id b ≤ id)%nat → submitted_of id (trace b) = [])
      end.

(** Once [Disposed id] is in the trace, no command of [id] has been
    executed after it, and the context is flagged or gone. *)
Definition torn_down (id : nat) (b : bridge) : Prop :=
  executed_of id (after_disposal id (trace b)) = []
  ∧ (Disposed id ∈ trace b →
     (id < next_context_id b)%nat
     ∧ ∀ ctx, contexts b !! id = Some ctx → disposed ctx = true).

End Bridge.

(** ** Instance methods of [Camera] and the rest of the module state *)

Module CameraApi.
Import Js Camera.

(** The argument registers a callback: it passes the guard of
    [ensurePictureOptions] and its [onPictureSaved] is truthy. *)
Definition has_callback (options : value) : bool :=
  is_object options && truthy (get (fields options) "onPictureSaved").

(** The number of [takePictureAsync] calls of a history whose argument
    registers a callback. *)
Fixpoint callbacks_requested (l : list action) : nat :=
  match l with
  | [] => O
  | TakePicture options :: l' =>
      (if has_callback options then 1 else 0) + callbacks_requested l'
  | PictureSaved _ _ _ :: l' => callbacks_requested l'
  end.

(** The keys of the registry lie between the first identifier and the
    counter, and the stored values are truthy. *)
Definition registry_ok (st : module_state) : Prop :=
  1 ≤ _GLOBAL_PICTURE_ID st
  ∧ ∀ (k : Z) (v : value),
      _PICTURE_SAVED_CALLBACKS st !! k = Some v →
      1 ≤ k < _GLOBAL_PICTURE_ID st ∧ truthy v = true.

(** What [this._cameraRef.current] offers when the native view is
    mounted: [takePicture] and [record], each with the promise a call
    returns. *)
Record CameraViewRef := {
  takePicture : gmap string value → promise error value;
  record : value → promise error value
}.


(** [async recordAsync(options)] *)
Definition recordAsync (current : option CameraViewRef) (options : value)
  : promise error value :=
  let recordingOptions := ensureRecordingOptions options in
  match current with
  | Some view => await (record view recordingOptions)
  | None => Fulfilled VUndefined
  end.

(** [static async launchModernScanner(options)].  [OS] is [Platform.OS]
    and [native] the method [CameraManager.launchModernScanner], [None]
    when the manager has none, in which case calling it raises a
    [TypeError].  The result is the arguments the native method was
    called with and the promise returned.  The empty array is an object
    without fields. *)
Definition launchModernScanner (OS : string)
    (native : option (value → promise error value)) (options : value)
  : list value * promise error value :=
  let options :=
    if negb (truthy options) then VObj {["barCodeTypes" := VObj ∅]}
    else options in
  if String.eqb OS "ios" then
    match native with
    | Some launch =>
        ([options],
         match await (launch options) with
         | Fulfilled _ => Fulfilled VUndefined
         | Rejected e => Rejected e
         | Pending => Pending
         end)
    | None => ([], Rejected TypeError)
    end
  else ([], Fulfilled VUndefined).

(** A run of detections of one type in which every event has a callback
    that returns and a serialization other than its predecessor's;
    [prev] is the serialization before the first. *)
Fixpoint changing `{NativeEvent Event} (t prev : string)
    (l : list (detection (Event := Event))) : Prop :=
  match l with
  | [] => True
  | d :: l' =>
      event_type (det_event d) = t
      ∧ JSON_stringify (det_event d) ≠ prev
      ∧ is_Some (det_callback d)
      ∧ det_outcome d = Returns
      ∧ changing t (JSON_stringify (det_event d)) l'
  end.

End CameraApi.

(** ** The disabled updates controller *)

Module Updates.

(** The one exception of [DisabledAppController]. *)
Inductive exception := UpdatesDisabledException.

(** What the controller reads of its [AppLauncher]. *)
Record launcher := {
  launchedUpdate : option string;
  launchAssetUrl : option string;
  isUsingEmbeddedAssets : bool;
  assetFilesMap : option (gmap string string)
}.

(** The stored properties of [DisabledAppController]; [delegate] is
    whether the weak reference holds. *)
Record controller := {
  delegate : bool;
  isEmergencyLaunch : bool;
  initializationError : option string;
  current_launcher : option launcher
}.

(** [required init(error: Error?)] *)
Definition init (error : option string) : controller :=
  {| delegate := false;
     isEmergencyLaunch := bool_decide (error ≠ None);
     initializationError := error;
     current_launcher := None |}.

(** What a call does to the outside: the block of a request it invokes,
    the block it hands to the main queue, the error it writes to the
    log. *)
Inductive effect :=
| SuccessBlock
| ErrorBlock (e : exception)
| MainQueueBlock
| LoggedError (e : string).

(** [start()]: [launched] is the [AppLauncherNoDatabase] after
    [launchUpdate()]. *)
Definition start (launched : launcher) (c : controller)
  : list effect * controller :=
  ((if delegate c then [MainQueueBlock] else [])
   ++ match initializationError c with
      | Some e => [LoggedError e]
      | None => []
      end,
   {| delegate := delegate c;
      isEmergencyLaunch := isEmergencyLaunch c;
      initializationError := initializationError c;
      current_launcher := Some launched |}).

(** [UpdatesModuleConstants], as [getConstantsForModule] fills it. *)
Record constants := {
  const_launchedUpdate : option string;
  const_embeddedUpdate : option string;
  const_isEmergencyLaunch : bool;
  const_isEnabled : bool;
  const_releaseChannel : string;
  const_isUsingEmbeddedAssets : bool;
  const_runtimeVersion : option string;
  const_checkOnLaunchNever : bool;
  const_requestHeaders : gmap string string;
  const_assetFilesMap : option (gmap string string)
}.

(** [getConstantsForModule()] *)
Definition getConstantsForModule (c : controller) : constants :=
  {| const_launchedUpdate := current_launcher c ≫= launchedUpdate;
     const_embeddedUpdate := None;
     const_isEmergencyLaunch := isEmergencyLaunch c;
     const_isEnabled := false;
     const_releaseChannel := "default";
     const_isUsingEmbeddedAssets :=
       default false (isUsingEmbeddedAssets <$> current_launcher c);
     const_runtimeVersion := None;
     const_checkOnLaunchNever := true;
     const_requestHeaders := ∅;
     const_assetFilesMap := current_launcher c ≫= assetFilesMap |}.

(** The six requests that take a success and an error block. *)
Inductive request :=
| RequestRelaunch
| CheckForUpdate
| FetchUpdate
| GetExtraParams
| SetExtraParam (key : string) (value : option string)
| GetNativeStateMachineContext.

(** Each of them: [errorBlockArg(UpdatesDisabledException())]. *)
Definition serve (r : request) (c : controller) : list effect * controller :=
  match r with
  | RequestRelaunch => ([ErrorBlock UpdatesDisabledException], c)
  | CheckForUpdate => ([ErrorBlock UpdatesDisabledException], c)
  | FetchUpdate => ([ErrorBlock UpdatesDisabledException], c)
  | GetExtraParams => ([ErrorBlock UpdatesDisabledException], c)
  | SetExtraParam _ _ => ([ErrorBlock UpdatesDisabledException], c)
  | GetNativeStateMachineContext => ([ErrorBlock UpdatesDisabledException], c)
  end.

(** What the owner of a controller does with it. *)
Inductive operation :=
| SetDelegate (present : bool)
| Start (launched : launcher)
| Serve (r : request).

Definition perform (o : operation) (c : controller)
  : list effect * controller :=
  match o with
  | SetDelegate present =>
      ([], {| delegate := present;
              isEmergencyLaunch := isEmergencyLaunch c;
              initializationError := initializationError c;
              current_launcher := current_launcher c |})
  | Start launched => start launched c
  | Serve r => serve r c
  end.

Fixpoint perform_all (l : list operation) (c : controller)
  : list effect * controller :=
  match l with
  | [] => ([], c)
  | o :: l' =>
      let '(effects, c') := perform o c in
      let '(effects', c'') := perform_all l' c' in
      (effects ++ effects', c'')
  end.

(** The requests among the operations of a history. *)
Definition requests_of (l : list operation) : list request :=
  omap (λ o, match o with Serve r => Some r | _ => None end) l.

(** The blocks of requests among the effects of a history. *)
Definition is_answer (e : effect) : bool :=
  match e with
  | SuccessBlock | ErrorBlock _ => true
  | MainQueueBlock | LoggedError _ => false
  end.

Definition answers_of (l : list effect) : list effect :=
  filter (λ e, is_answer e = true) l.

(** The launcher of the last [start()] of a history, if any. *)
Fixpoint last_started (l : list operation) (before : option launcher)
  : option launcher :=
  match l with
  | [] => before
  | Start launched :: l' => last_started l' (Some launched)
  | _ :: l' => last_started l' before
  end.

End Updates.

Import Js Camera.

(** * Properties *)

(** ** Argument preparation *)

Section Preparation.
Implicit Types (o : gmap string value) (st : module_state) (k : string).

Lemma ensurePictureOptions_object o st :
  ensurePictureOptions (VObj o) st =
    if truthy (get o "onPictureSaved") then
      (<["fastMode" := VBool true]>
         (<["id" := VNum (inject_Z (_GLOBAL_PICTURE_ID st))]> (with_quality o)),
       {| _PICTURE_SAVED_CALLBACKS :=
            <[_GLOBAL_PICTURE_ID st := get o "onPictureSaved"]>
              (_PICTURE_SAVED_CALLBACKS st);
          _GLOBAL_PICTURE_ID := _GLOBAL_PICTURE_ID st + 1 |})
    else (with_quality o, st).
Proof.
  unfold ensurePictureOptions, with_quality; simpl.
  destruct (truthy (get o "quality")); simpl; [reflexivity|].
  assert (E : get (<["quality" := VNum 1]> o) "onPictureSaved"
              = get o "onPictureSaved").
  { unfold get. rewrite lookup_insert_ne; [reflexivity | discriminate]. }
  rewrite E. reflexivity.
Qed.

Lemma ensurePictureOptions_not_object v st :
  is_object v = false →
  ensurePictureOptions v st = ({["quality" := VNum 1]}, st).
Proof.
  intros Hv. unfold ensurePictureOptions.
  assert (G : negb (truthy v) || negb (String.eqb (typeof v) "object") = true).
  { unfold is_object in Hv. rewrite <- negb_andb, Hv. reflexivity. }
  rewrite G. reflexivity.
Qed.

Lemma get_with_quality o :
  get (with_quality o) "quality"
  = if truthy (get o "quality") then get o "quality" else VNum 1.
Proof.
  unfold with_quality. destruct (truthy (get o "quality")); [reflexivity|].
  unfold get. rewrite lookup_insert_eq. reflexivity.
Qed.

Lemma lookup_with_quality o k :
  k ≠ "quality" → with_quality o !! k = o !! k.
Proof.
  intros Hk. unfold with_quality.
  destruct (truthy (get o "quality")); [reflexivity|].
  rewrite lookup_insert_ne; [reflexivity | congruence].
Qed.

End Preparation.

(** C8: for an options record whose [quality] is absent or falsy, an
    explicit [0] included, [ensurePictureOptions] returns a record whose
    [quality] is [1]; a truthy [quality] is returned as it was. *)
Theorem ensurePictureOptions_quality (o : gmap string value) (st : module_state) :
  get (ensurePictureOptions (VObj o) st).1 "quality"
    = (if truthy (get o "quality") then get o "quality" else VNum 1)
  ∧ get (ensurePictureOptions (VObj (<["quality" := VNum 0]> o)) st).1 "quality"
    = VNum 1
  ∧ get (ensurePictureOptions (VObj (delete "quality" o)) st).1 "quality"
    = VNum 1.
Proof.
  assert (G : ∀ o', get (ensurePictureOptions (VObj o') st).1 "quality"
                    = if truthy (get o' "quality") then get o' "quality"
                      else VNum 1).
  { intros o'. rewrite ensurePictureOptions_object.
    destruct (truthy (get o' "onPictureSaved")); simpl.
    - unfold get at 1. rewrite !lookup_insert_ne by discriminate.
      apply get_with_quality.
    - apply get_with_quality. }
  split; [apply G|]. split; rewrite G; unfold get.
  - rewrite lookup_insert_eq. reflexivity.
  - rewrite lookup_delete_eq. reflexivity.
Qed.

(** C9: on an object, [ensurePictureOptions] changes no field other than
    [quality], [id] and [fastMode], and leaves [id] and [fastMode] alone
    too when the object has no [onPictureSaved] callback;
    [ensureRecordingOptions] returns an object as it is. *)
Theorem ensure_options_frame (o : gmap string value) (st : module_state) :
  (∀ k : string, k ≠ "quality" → k ≠ "id" → k ≠ "fastMode" →
      (ensurePictureOptions (VObj o) st).1 !! k = o !! k)
  ∧ (truthy (get o "onPictureSaved") = false →
     ∀ k : string, k ≠ "quality" →
       (ensurePictureOptions (VObj o) st).1 !! k = o !! k)
  ∧ ensureRecordingOptions (VObj o) = VObj o.
Proof.
  rewrite ensurePictureOptions_object. repeat split.
  - intros k Hq Hi Hf. destruct (truthy (get o "onPictureSaved")); simpl.
    + rewrite !lookup_insert_ne by congruence. by apply lookup_with_quality.
    + by apply lookup_with_quality.
  - intros -> k Hq. simpl. by apply lookup_with_quality.
Qed.

Lemma ensure_options_frame_witness :
  (ensurePictureOptions (VObj {["base64" := VBool true]}) initial).1 !! "base64"
    = ({["base64" := VBool true]} : gmap string value) !! "base64"
  ∧ (ensurePictureOptions (VObj {["id" := VStr "mine"]}) initial).1 !! "id"
    = ({["id" := VStr "mine"]} : gmap string value) !! "id".
Proof.
  split.
  - apply (proj1 (ensure_options_frame {["base64" := VBool true]} initial)
             "base64"); discriminate.
  - apply (proj1 (proj2 (ensure_options_frame {["id" := VStr "mine"]} initial)));
      [reflexivity | discriminate].
Defined.

(** On an argument that takes every write, [prepare_picture] returns
    what [ensurePictureOptions] computes. *)
Lemma prepare_picture_extensible (options : value) (st : module_state) :
  prepare_picture Extensible options st
  = (Normal (ensurePictureOptions options st).1,
     (ensurePictureOptions options st).2).
Proof.
  unfold prepare_picture, ensurePictureOptions.
  destruct (negb (truthy options) || negb (String.eqb (typeof options) "object"));
    cbn [write_fails]; rewrite andb_false_r;
    match goal with |- context [if truthy ?c then _ else _] =>
      destruct (truthy c) end; reflexivity.
Qed.

(** C4, as the code has it: an argument that is not a non-null object is
    not rejected; it is replaced by an empty options record and the call
    goes on, [ensurePictureOptions] returning the record [{quality: 1}]
    and [ensureRecordingOptions] the record [{}]. *)
Theorem malformed_arguments_substituted (p : protection) (options : value)
    (st : module_state) :
  is_object options = false →
  prepare_picture p options st = (Normal {["quality" := VNum 1]}, st)
  ∧ prepare_recording options = Normal (VObj ∅).
Proof.
  intros Hv. split.
  - unfold prepare_picture.
    assert (G : negb (truthy options)
                || negb (String.eqb (typeof options) "object") = true).
    { unfold is_object in Hv. rewrite <- negb_andb, Hv. reflexivity. }
    rewrite G. reflexivity.
  - unfold prepare_recording, ensureRecordingOptions. f_equal.
    unfold is_object in Hv.
    destruct (truthy options) eqn:E; simpl in *; [|reflexivity].
    rewrite E, Hv. reflexivity.
Qed.

Lemma malformed_arguments_substituted_witness :
  prepare_picture Extensible (VStr "fast") initial
    = (Normal {["quality" := VNum 1]}, initial)
  ∧ prepare_recording (VStr "fast") = Normal (VObj ∅).
Proof.
  apply (malformed_arguments_substituted Extensible (VStr "fast") initial).
  reflexivity.
Defined.

(** C4, as stated, fails: [null], a number and a string are not options
    objects, and both preparation steps return a record on them, not an
    [InvalidArgument] error. *)
Lemma malformed_arguments_not_rejected :
  is_object VNull = false
  ∧ prepare_picture Extensible VNull initial
    = (Normal {["quality" := VNum 1]}, initial)
  ∧ (prepare_picture Extensible VNull initial).1 ≠ Throw InvalidArgument
  ∧ prepare_recording VNull = Normal (VObj ∅)
  ∧ prepare_recording VNull ≠ Throw InvalidArgument
  ∧ is_object (VNum 3) = false
  ∧ (prepare_picture Extensible (VNum 3) initial).1 ≠ Throw InvalidArgument
  ∧ is_object (VStr "x") = false
  ∧ prepare_recording (VStr "x") ≠ Throw InvalidArgument.
Proof. repeat split; discriminate. Qed.

(** ** The registry of picture-saved callbacks *)

Section Registry.
Implicit Types (st : module_state) (l : list action) (id : Z).

Lemma ensurePictureOptions_state options st :
  (ensurePictureOptions options st).2 = st
  ∨ ∃ v, (ensurePictureOptions options st).2
         = {| _PICTURE_SAVED_CALLBACKS :=
                <[_GLOBAL_PICTURE_ID st := v]> (_PICTURE_SAVED_CALLBACKS st);
              _GLOBAL_PICTURE_ID := _GLOBAL_PICTURE_ID st + 1 |}.
Proof.
  unfold ensurePictureOptions.
  match goal with |- context [if truthy ?c then _ else _] =>
    destruct (truthy c) end; simpl; eauto.
Qed.

Lemma step_PictureSaved id data result st :
  step (PictureSaved id data result) st
  = match _PICTURE_SAVED_CALLBACKS st !! id with
    | Some (VFun f) =>
        ([(id, f, data, result)],
         if returned result then
           {| _PICTURE_SAVED_CALLBACKS := delete id (_PICTURE_SAVED_CALLBACKS st);
              _GLOBAL_PICTURE_ID := _GLOBAL_PICTURE_ID st |}
         else st)
    | _ => ([], st)
    end.
Proof.
  unfold step, _onPictureSaved.
  destruct (_PICTURE_SAVED_CALLBACKS st !! id) as [v|]; simpl; [|reflexivity].
  destruct v; try reflexivity; simpl;
    first [ by destruct result
          | match goal with |- context [if ?c then _ else _] =>
              by destruct c end ].
Qed.

(** What an event does to the module state: nothing, or the removal of
    the entry of its id. *)
Lemma step_PictureSaved_state id data result st :
  (step (PictureSaved id data result) st).2 = st
  ∨ (is_Some (_PICTURE_SAVED_CALLBACKS st !! id)
     ∧ (step (PictureSaved id data result) st).2
       = {| _PICTURE_SAVED_CALLBACKS := delete id (_PICTURE_SAVED_CALLBACKS st);
            _GLOBAL_PICTURE_ID := _GLOBAL_PICTURE_ID st |}).
Proof.
  rewrite step_PictureSaved.
  destruct (_PICTURE_SAVED_CALLBACKS st !! id) as [[]|]; simpl; auto.
  destruct (returned result); simpl; eauto.
Qed.

Lemma step_counter a st :
  _GLOBAL_PICTURE_ID st ≤ _GLOBAL_PICTURE_ID (step a st).2.
Proof.
  destruct a as [options|id data result].
  - simpl. destruct (ensurePictureOptions_state options st) as [->|[v ->]];
      simpl; lia.
  - destruct (step_PictureSaved_state id data result st) as [->|[_ ->]];
      simpl; lia.
Qed.

Lemma step_keys_below a st : keys_below st → keys_below (step a st).2.
Proof.
  intros Hk. destruct a as [options|id data result].
  - simpl. destruct (ensurePictureOptions_state options st) as [->|[v ->]];
      [exact Hk|].
    intros k Hge. simpl in *. rewrite lookup_insert_ne by lia.
    apply Hk. lia.
  - destruct (step_PictureSaved_state id data result st) as [->|[_ ->]];
      [exact Hk|].
    intros k Hge. simpl in *.
    destruct (decide (id = k)) as [->|Hne].
    + by rewrite lookup_delete_eq.
    + rewrite lookup_delete_ne by done. by apply Hk.
Qed.

Lemma step_spent a id st : spent id st → spent id (step a st).2.
Proof.
  intros [Hlt Hnone]. split; [pose proof (step_counter a st); lia|].
  destruct a as [options|id' data result].
  - simpl. destruct (ensurePictureOptions_state options st) as [->|[v ->]];
      [exact Hnone|].
    simpl. rewrite lookup_insert_ne by lia. exact Hnone.
  - destruct (step_PictureSaved_state id' data result st) as [->|[_ ->]];
      [exact Hnone|].
    simpl. destruct (decide (id' = id)) as [->|Hne].
    + by rewrite lookup_delete_eq.
    + by rewrite lookup_delete_ne.
Qed.

Lemma run_cons a l st :
  run (a :: l) st
  = ((step a st).1 ++ (run l (step a st).2).1, (run l (step a st).2).2).
Proof.
  cbn [run]. destruct (step a st) as [log st']. cbn [fst snd].
  destruct (run l st') as [log' st'']. reflexivity.
Qed.

Lemma run_counter l st :
  _GLOBAL_PICTURE_ID st ≤ _GLOBAL_PICTURE_ID (run l st).2.
Proof.
  revert st. induction l as [|a l IH]; intros st; [simpl; lia|].
  rewrite run_cons. simpl.
  pose proof (step_counter a st). pose proof (IH (step a st).2). lia.
Qed.

Lemma run_keys_below l st : keys_below st → keys_below (run l st).2.
Proof.
  revert st. induction l as [|a l IH]; intros st Hk; [exact Hk|].
  rewrite run_cons. simpl. by apply IH, step_keys_below.
Qed.

Lemma keys_below_initial : keys_below initial.
Proof. intros k _. apply lookup_empty. Qed.

Lemma invocations_for_app id (log log' : list (Z * nat * value * outcome)) :
  invocations_for id (log ++ log')
  = invocations_for id log ++ invocations_for id log'.
Proof. apply filter_app. Qed.

Lemma completed_app (log log' : list (Z * nat * value * outcome)) :
  completed (log ++ log') = completed log ++ completed log'.
Proof. apply filter_app. Qed.

Lemma step_spent_silent a id st :
  spent id st → invocations_for id (step a st).1 = [].
Proof.
  intros [_ Hnone]. destruct a as [options|id' data result]; [reflexivity|].
  rewrite step_PictureSaved.
  destruct (_PICTURE_SAVED_CALLBACKS st !! id') as [[]|] eqn:E;
    try reflexivity.
  simpl. unfold invocations_for. rewrite filter_cons_False; [reflexivity|].
  simpl. intros ->. congruence.
Qed.

(** Once an identifier is spent, no event carrying it invokes anything,
    and it stays spent. *)
Lemma run_spent l id st :
  spent id st →
  invocations_for id (run l st).1 = [] ∧ spent id (run l st).2.
Proof.
  revert st. induction l as [|a l IH]; intros st Hs; [by split|].
  rewrite run_cons. simpl. rewrite invocations_for_app.
  rewrite (step_spent_silent a id st Hs).
  by apply IH, step_spent.
Qed.

(** Of the invocations made for one id, at most one returns. *)
Lemma run_returns_at_most_once l id st :
  keys_below st →
  (length (completed (invocations_for id (run l st).1)) ≤ 1)%nat.
Proof.
  revert st. induction l as [|a l IH]; intros st Hk; [simpl; lia|].
  rewrite run_cons. cbn [fst].
  rewrite invocations_for_app, completed_app, length_app.
  pose proof (IH _ (step_keys_below a st Hk)) as Hrest.
  destruct a as [options|id' data result]; [exact Hrest|].
  rewrite step_PictureSaved in Hrest |- *.
  destruct (_PICTURE_SAVED_CALLBACKS st !! id') as [v|] eqn:E; [|exact Hrest].
  destruct v; try exact Hrest.
  cbn [fst snd] in Hrest |- *. destruct (decide (id' = id)) as [->|Hne].
  - unfold invocations_for at 1. rewrite filter_cons_True by done.
    rewrite filter_nil. unfold completed at 1.
    destruct (returned result) eqn:Er.
    + rewrite filter_cons_True by done.
      match goal with |- context [run l ?s] =>
        destruct (run_spent l id s) as [-> _] end; [|simpl; lia].
      split; simpl; [|by rewrite lookup_delete_eq].
      destruct (Z_lt_le_dec id (_GLOBAL_PICTURE_ID st)) as [|Hge]; [done|].
      rewrite (Hk _ Hge) in E. discriminate.
    + rewrite filter_cons_False by (simpl; congruence).
      simpl. exact Hrest.
  - unfold invocations_for at 1. rewrite filter_cons_False by done.
    exact Hrest.
Qed.

End Registry.

(** C2, as the code has it: a registered picture-saved callback returns
    at most once.  In any history, of the invocations made by the events
    carrying one id at most one returns; and when a function is stored
    under [id], an [onPictureSaved] event carrying [id] whose callback
    returns invokes it on the event's data and removes the entry, after
    which, whatever happens in between, an event carrying [id] invokes
    nothing and leaves the registry as it is. *)
Theorem picture_saved_resolves_once (before later : list action) (id : Z)
    (f : nat) (data data' : value) (result' : outcome) :
  let st := (run before initial).2 in
  (length (completed (invocations_for id (run before initial).1)) ≤ 1)%nat
  ∧ (_PICTURE_SAVED_CALLBACKS st !! id = Some (VFun f) →
     ∃ st1,
       _onPictureSaved id data Returns st = ([(f, data)], Normal st1)
       ∧ _PICTURE_SAVED_CALLBACKS st1 = delete id (_PICTURE_SAVED_CALLBACKS st)
       ∧ invocations_for id (run later st1).1 = []
       ∧ _onPictureSaved id data' result' (run later st1).2
         = ([], Normal (run later st1).2)).
Proof.
  intros st.
  pose proof (run_keys_below before initial keys_below_initial) as Hk.
  fold st in Hk.
  split; [apply run_returns_at_most_once, keys_below_initial|].
  intros Hf. eexists. unfold _onPictureSaved at 1. rewrite Hf. simpl.
  split; [reflexivity|]. split; [reflexivity|].
  match goal with |- context [run later ?s] =>
    destruct (run_spent later id s) as [Hsilent [_ Hnone]] end.
  { split; simpl; [|by rewrite lookup_delete_eq].
    destruct (Z_lt_le_dec id (_GLOBAL_PICTURE_ID st)) as [|Hge]; [done|].
    rewrite (Hk _ Hge) in Hf. discriminate. }
  split; [exact Hsilent|].
  unfold _onPictureSaved. by rewrite Hnone.
Qed.

Lemma picture_saved_resolves_once_witness :
  let before := [TakePicture (VObj {["onPictureSaved" := VFun 3]});
                 PictureSaved 1 VNull (Throws (CodedError "E_LISTENER"))] in
  let later := [PictureSaved 1 VNull Returns; TakePicture VNull] in
  ∃ st1,
    _onPictureSaved 1 (VStr "file.jpg") Returns (run before initial).2
      = ([(3%nat, VStr "file.jpg")], Normal st1)
    ∧ _PICTURE_SAVED_CALLBACKS st1
      = delete 1 (_PICTURE_SAVED_CALLBACKS (run before initial).2)
    ∧ invocations_for 1 (run later st1).1 = []
    ∧ _onPictureSaved 1 VNull Returns (run later st1).2
      = ([], Normal (run later st1).2).
Proof.
  intros before later.
  apply (proj2 (picture_saved_resolves_once before later 1 3%nat
                  (VStr "file.jpg") VNull Returns)).
  reflexivity.
Defined.

(** C2, as stated, fails: a callback that throws is not removed, since
    the [delete] comes after the call, and the next event carrying the
    id invokes it again. *)
Lemma throwing_callback_invoked_again :
  let failed := Throws (CodedError "E_LISTENER") in
  let l := [TakePicture (VObj {["onPictureSaved" := VFun 3]});
            PictureSaved 1 (VStr "a.jpg") failed;
            PictureSaved 1 (VStr "a.jpg") Returns] in
  _onPictureSaved 1 (VStr "a.jpg") failed
    (run [TakePicture (VObj {["onPictureSaved" := VFun 3]})] initial).2
  = ([(3%nat, VStr "a.jpg")], Throw (CodedError "E_LISTENER"))
  ∧ _PICTURE_SAVED_CALLBACKS
      (run [TakePicture (VObj {["onPictureSaved" := VFun 3]});
            PictureSaved 1 (VStr "a.jpg") failed] initial).2 !! 1
    = Some (VFun 3)
  ∧ invocations_for 1 (run l initial).1
    = [(1, 3%nat, VStr "a.jpg", failed); (1, 3%nat, VStr "a.jpg", Returns)]
  ∧ length (invocations_for 1 (run l initial).1) = 2%nat.
Proof. vm_compute. repeat split; reflexivity. Qed.

(** C3: identifiers only grow and are never used twice.  Of two calls of
    [ensurePictureOptions] with an [onPictureSaved] callback, whatever
    happens before and between them, the later one receives a strictly
    greater [id], and each stores its callback under a key the registry
    does not hold at that moment. *)
Theorem picture_ids_increase (before between : list action)
    (options1 options2 : value) :
  carries_callback options1 → carries_callback options2 →
  let st1 := (run before initial).2 in
  let r1 := ensurePictureOptions options1 st1 in
  let st2 := (run between r1.2).2 in
  let r2 := ensurePictureOptions options2 st2 in
  ∃ i1 i2 : Z,
    get r1.1 "id" = VNum (inject_Z i1)
    ∧ get r2.1 "id" = VNum (inject_Z i2)
    ∧ i1 < i2
    ∧ _PICTURE_SAVED_CALLBACKS st1 !! i1 = None
    ∧ _PICTURE_SAVED_CALLBACKS r1.2 !! i1
      = Some (get (fields options1) "onPictureSaved")
    ∧ _PICTURE_SAVED_CALLBACKS st2 !! i2 = None
    ∧ _PICTURE_SAVED_CALLBACKS r2.2 !! i2
      = Some (get (fields options2) "onPictureSaved").
Proof.
  intros (o1 & -> & H1) (o2 & -> & H2) st1 r1 st2 r2.
  exists (_GLOBAL_PICTURE_ID st1), (_GLOBAL_PICTURE_ID st2).
  pose proof (run_keys_below before initial keys_below_initial) as Hk1.
  fold st1 in Hk1.
  assert (E1 : r1 = (<["fastMode" := VBool true]>
                       (<["id" := VNum (inject_Z (_GLOBAL_PICTURE_ID st1))]>
                          (with_quality o1)),
                     {| _PICTURE_SAVED_CALLBACKS :=
                          <[_GLOBAL_PICTURE_ID st1 := get o1 "onPictureSaved"]>
                            (_PICTURE_SAVED_CALLBACKS st1);
                        _GLOBAL_PICTURE_ID := _GLOBAL_PICTURE_ID st1 + 1 |})).
  { subst r1. by rewrite ensurePictureOptions_object, H1. }
  assert (E2 : r2 = (<["fastMode" := VBool true]>
                       (<["id" := VNum (inject_Z (_GLOBAL_PICTURE_ID st2))]>
                          (with_quality o2)),
                     {| _PICTURE_SAVED_CALLBACKS :=
                          <[_GLOBAL_PICTURE_ID st2 := get o2 "onPictureSaved"]>
                            (_PICTURE_SAVED_CALLBACKS st2);
                        _GLOBAL_PICTURE_ID := _GLOBAL_PICTURE_ID st2 + 1 |})).
  { subst r2. by rewrite ensurePictureOptions_object, H2. }
  assert (Hk1' : keys_below r1.2).
  { apply (step_keys_below (TakePicture (VObj o1)) st1 Hk1). }
  pose proof (run_keys_below between r1.2 Hk1') as Hk2. fold st2 in Hk2.
  pose proof (run_counter between r1.2) as Hc. fold st2 in Hc.
  rewrite E1 in Hc. simpl in Hc.
  rewrite E1, E2. simpl. unfold get.
  rewrite !(lookup_insert_ne _ "fastMode" "id") by discriminate.
  rewrite !lookup_insert_eq. simpl.
  repeat split; try reflexivity; try lia.
  - apply Hk1. lia.
  - apply Hk2. lia.
Qed.

Lemma picture_ids_increase_witness :
  let options := VObj {["onPictureSaved" := VFun 3]} in
  let r1 := ensurePictureOptions options initial in
  let r2 := ensurePictureOptions options
              (run [PictureSaved 1 VUndefined Returns] r1.2).2 in
  ∃ i1 i2 : Z,
    get r1.1 "id" = VNum (inject_Z i1)
    ∧ get r2.1 "id" = VNum (inject_Z i2)
    ∧ i1 < i2
    ∧ _PICTURE_SAVED_CALLBACKS initial !! i1 = None
    ∧ _PICTURE_SAVED_CALLBACKS r1.2 !! i1
      = Some (get (fields options) "onPictureSaved")
    ∧ _PICTURE_SAVED_CALLBACKS (run [PictureSaved 1 VUndefined Returns] r1.2).2 !! i2
      = None
    ∧ _PICTURE_SAVED_CALLBACKS r2.2 !! i2
      = Some (get (fields options) "onPictureSaved").
Proof.
  intros options r1 r2.
  apply (picture_ids_increase [] [PictureSaved 1 VUndefined Returns] options
           options);
    (exists {["onPictureSaved" := VFun 3]}; split; reflexivity).
Defined.

(** ** Availability queries *)

(** The shape shared by the three queries: a guard on the presence of the
    method, then [await] of its promise. *)
Lemma guarded_query {A} (method : option (promise error A))
    (moduleName propertyName : string) :
  guarded moduleName propertyName method
    match method with
    | None => Rejected (UnavailabilityError moduleName propertyName)
    | Some p => await p
    end.
Proof.
  unfold guarded, raises_unavailability.
  destruct method as [[a|reason|]|]; simpl.
  - repeat split; try congruence; try discriminate.
    + intros (x & y & Hxy). discriminate.
    + intros [|(x & y & Hxy)]; discriminate.
  - repeat split; try congruence; try discriminate.
    + intros (x & y & [= ->]). right. eauto.
    + intros [|(x & y & [= ->])]; [discriminate | eauto].
  - repeat split; try congruence; try discriminate.
    + intros (x & y & Hxy). discriminate.
    + intros [|(x & y & Hxy)]; discriminate.
  - repeat split; try congruence; try discriminate; eauto.
Qed.

(** C10, as the code has it: each availability query is rejected with
    its [UnavailabilityError] whenever the method is absent on
    [CameraManager]; when the method is present the query settles as the
    promise of the manager's method does, with the value it produced or
    with its rejection passed on unchanged, so that it is rejected with
    an [UnavailabilityError] only when the method is absent or the
    manager itself rejected with one; a value the query returns was
    produced by the manager's method. *)
Theorem availability_queries (m : CameraManager) :
  guarded "expo-camera" "isAvailableAsync"
    (manager_isAvailableAsync m) (isAvailableAsync m)
  ∧ guarded "expo-camera" "getAvailableCameraTypesAsync"
      (manager_getAvailableCameraTypesAsync m) (getAvailableCameraTypesAsync m)
  ∧ guarded "Camera" "getAvailableVideoCodecsAsync"
      (manager_getAvailableVideoCodecsAsync m) (getAvailableVideoCodecsAsync m).
Proof.
  split; [|split].
  - apply (guarded_query (manager_isAvailableAsync m)).
  - apply (guarded_query (manager_getAvailableCameraTypesAsync m)).
  - apply (guarded_query (manager_getAvailableVideoCodecsAsync m)).
Qed.

Lemma availability_queries_witness :
  isAvailableAsync
    {| manager_isAvailableAsync := Some (Rejected (CodedError "E_NO_CAMERA"));
       manager_getAvailableCameraTypesAsync := None;
       manager_getAvailableVideoCodecsAsync := None |}
  = Rejected (CodedError "E_NO_CAMERA")
  ∧ getAvailableCameraTypesAsync
      {| manager_isAvailableAsync := Some (Rejected (CodedError "E_NO_CAMERA"));
         manager_getAvailableCameraTypesAsync := None;
         manager_getAvailableVideoCodecsAsync := None |}
    = Rejected (UnavailabilityError "expo-camera" "getAvailableCameraTypesAsync").
Proof.
  set (m := {| manager_isAvailableAsync :=
                 Some (Rejected (CodedError "E_NO_CAMERA"));
               manager_getAvailableCameraTypesAsync := None;
               manager_getAvailableVideoCodecsAsync := None |}).
  split.
  - apply (proj1 (proj2 (proj2 (proj1 (availability_queries m))))).
    reflexivity.
  - apply (proj1 (proj1 (proj2 (availability_queries m)))).
    reflexivity.
Defined.

(** C10, as stated, fails: a method that is present and whose promise is
    rejected with an [UnavailabilityError] makes the query raise that
    error, which it passes on unchanged. *)
Lemma present_method_raises_unavailability :
  let m := {| manager_isAvailableAsync :=
                Some (Rejected (UnavailabilityError "ExpoCamera" "isAvailableAsync"));
              manager_getAvailableCameraTypesAsync := None;
              manager_getAvailableVideoCodecsAsync := None |} in
  raises_unavailability (isAvailableAsync m)
  ∧ manager_isAvailableAsync m ≠ None
  ∧ ¬ (raises_unavailability (isAvailableAsync m)
       ↔ manager_isAvailableAsync m = None).
Proof.
  intros m.
  assert (R : raises_unavailability (isAvailableAsync m))
    by (exists "ExpoCamera", "isAvailableAsync"; reflexivity).
  split; [exact R|]. split; [discriminate|].
  intros [Hto _]. specialize (Hto R). discriminate.
Qed.

(** ** Throttling of object-detection events *)

Section Throttling.
Context {Event : Type} `{NativeEvent Event}.
Implicit Types (e : Event) (this : instance) (log : list (Event * Z)).

Lemma lookup_store_eq {A} (t : string) (v : A) (m : gmap string A) :
  t ≠ "__proto__" → store t v m !! t = Some v.
Proof.
  intros Ht. unfold store. apply String.eqb_neq in Ht. rewrite Ht.
  apply lookup_insert_eq.
Qed.

Lemma lookup_store_ne {A} (t t' : string) (v : A) (m : gmap string A) :
  t ≠ t' → store t v m !! t' = m !! t'.
Proof.
  intros Ht. unfold store. destruct (String.eqb t "__proto__"); [done|].
  by apply lookup_insert_ne.
Qed.

Lemma lookup_store_proto {A} (t : string) (v : A) (m : gmap string A) :
  m !! "__proto__" = None → store t v m !! "__proto__" = None.
Proof.
  intros Hm. unfold store.
  destruct (String.eqb_spec t "__proto__") as [->|Ht]; [done|].
  by rewrite lookup_insert_ne.
Qed.

Lemma last_delivered_cons e tm log (t : string) :
  last_delivered t ((e, tm) :: log)
  = if decide (event_type e = t) then Some (e, tm) else last_delivered t log.
Proof.
  simpl. destruct (String.eqb_spec (event_type e) t); case_decide; congruence.
Qed.

Lemma caches_follow_mounted : caches_follow [] mounted.
Proof.
  intros t. simpl. rewrite !lookup_empty.
  by destruct (String.eqb t "__proto__").
Qed.

Lemma caches_follow_step cb e result now stamp log this :
  caches_follow log this →
  let r := _onObjectDetected cb e result now stamp this in
  caches_follow
    ((if returned result then map (λ c, (c.2, stamp)) r.1 else []) ++ log)
    r.2.
Proof.
  intros Hc. unfold _onObjectDetected.
  destruct (throttled e now this); [by destruct result|].
  destruct cb as [f|]; [|by destruct result].
  destruct result as [|err]; [|exact Hc].
  intros t. cbn [returned fst snd map app]. rewrite last_delivered_cons.
  cbn [_lastEvents _lastEventsTimes]. destruct (Hc t) as [He Ht].
  destruct (String.eqb_spec t "__proto__") as [Hp|Hp].
  - rewrite Hp in He, Ht |- *. by rewrite !lookup_store_proto.
  - case_decide as Heq.
    + subst t. by rewrite !lookup_store_eq.
    + by rewrite !lookup_store_ne.
Qed.

Lemma caches_follow_detect l log this :
  caches_follow log this →
  caches_follow (detect l log this).1 (detect l log this).2.
Proof.
  revert log this. induction l as [|d l IH]; intros log this Hc; [exact Hc|].
  simpl.
  pose proof (caches_follow_step (det_callback d) (det_event d)
                (det_outcome d) (det_now d) (det_stamp d) log this Hc) as Hs.
  destruct (_onObjectDetected _ _ _ _ _ this) as [calls this'].
  by apply IH.
Qed.

(** On caches that follow a log, the early [return] is taken exactly
    when the event was recently delivered, provided no serialization is
    the empty string. *)
Lemma throttled_iff e now log this :
  (∀ e', JSON_stringify e' ≠ "") →
  caches_follow log this →
  throttled e now this = true ↔ recently_delivered e now log.
Proof.
  intros Hne Hc. unfold throttled, recently_delivered.
  destruct (Hc (event_type e)) as [-> ->].
  destruct (String.eqb_spec (event_type e) "__proto__") as [Hp|Hp].
  { split; [discriminate | by intros [? _]]. }
  destruct (last_delivered (event_type e) log) as [[e0 t0]|]; simpl.
  - rewrite !andb_true_iff, negb_true_iff, String.eqb_neq, String.eqb_eq.
    unfold EventThrottleMs. rewrite Z.ltb_lt. split.
    + intros [[_ Hs] Ht]. eauto 6.
    + intros (_ & e1 & t1 & [= <- <-] & Hs & Ht). auto.
  - split; [discriminate | intros (_ & ? & ? & ? & _); discriminate].
Qed.

Lemma _onObjectDetected_other_type cb e result now stamp this (t : string) :
  t ≠ event_type e →
  let this' := (_onObjectDetected cb e result now stamp this).2 in
  _lastEvents this' !! t = _lastEvents this !! t
  ∧ _lastEventsTimes this' !! t = _lastEventsTimes this !! t.
Proof.
  intros Ht. unfold _onObjectDetected.
  destruct (throttled e now this); [done|].
  destruct cb; [|done]. destruct result; [|done].
  simpl. by rewrite !lookup_store_ne.
Qed.

Lemma throttled_local e now this1 this2 :
  _lastEvents this1 !! event_type e = _lastEvents this2 !! event_type e →
  _lastEventsTimes this1 !! event_type e
    = _lastEventsTimes this2 !! event_type e →
  throttled e now this1 = throttled e now this2.
Proof. intros H1 H2. unfold throttled. by rewrite H1, H2. Qed.

End Throttling.

(** C1, as the code has it: with a callback present, [_onObjectDetected]
    does not invoke the callback exactly when an event of the same type,
    other than [__proto__], was delivered before, its callback returning,
    the last one so delivered has the same serialization and fewer than
    500 ms have passed since that delivery; otherwise it invokes the
    callback with the event and, once the callback has returned, stores
    the event's serialization and the current time under the type.
    [JSON.stringify] returns no empty string. *)
Theorem onObjectDetected_throttles `{NativeEvent Event}
    (history : list (detection (Event := Event))) (f : nat) (e : Event)
    (result : outcome) (now stamp : Z) :
  (∀ e', JSON_stringify e' ≠ "") →
  let log := (detect history [] mounted).1 in
  let this := (detect history [] mounted).2 in
  let calls := (_onObjectDetected (Some f) e result now stamp this).1 in
  let this' := (_onObjectDetected (Some f) e result now stamp this).2 in
  (calls = [] ↔ recently_delivered e now log)
  ∧ (¬ recently_delivered e now log →
     calls = [(f, e)]
     ∧ (result = Returns → event_type e ≠ "__proto__" →
        _lastEvents this' !! event_type e = Some (JSON_stringify e)
        ∧ _lastEventsTimes this' !! event_type e = Some stamp)).
Proof.
  intros Hne log this calls this'.
  pose proof (throttled_iff e now log this Hne
                (caches_follow_detect history [] mounted caches_follow_mounted))
    as Hiff.
  subst calls this'. unfold _onObjectDetected.
  destruct (throttled e now this) eqn:Ethr; cbn [fst snd].
  - split; [tauto|]. intros Hn. destruct Hn. by apply Hiff.
  - split.
    + split; [discriminate|]. intros Hr. apply Hiff in Hr. discriminate.
    + intros _. split; [done|]. intros -> Hp.
      cbn [_lastEvents _lastEventsTimes]. by rewrite !lookup_store_eq.
Qed.

Lemma barcode_json_nonempty (b : barcode) : JSON_stringify b ≠ "".
Proof. discriminate. Qed.

Lemma onObjectDetected_throttles_witness :
  let qr := {| bc_type := "qr"; bc_data := "expo" |} in
  let seen := [{| det_callback := Some 7%nat; det_event := qr;
                  det_outcome := Throws (CodedError "E_LISTENER");
                  det_now := 900; det_stamp := 901 |};
               {| det_callback := Some 7%nat; det_event := qr;
                  det_outcome := Returns;
                  det_now := 1000; det_stamp := 1001 |}] in
  (_onObjectDetected (Some 7%nat) qr Returns 1200 1201
     (detect seen [] mounted).2).1 = []
  ∧ (_onObjectDetected (Some 7%nat) qr Returns 1501 1502
       (detect seen [] mounted).2).1
    = [(7%nat, qr)].
Proof.
  intros qr seen. split.
  - apply (proj1 (onObjectDetected_throttles seen 7%nat qr Returns 1200 1201
                    barcode_json_nonempty)).
    split; [discriminate|]. exists qr, 1001.
    split; [reflexivity | split; [reflexivity | lia]].
  - apply (proj2 (onObjectDetected_throttles seen 7%nat qr Returns 1501 1502
                    barcode_json_nonempty)).
    intros (_ & e0 & t0 & Hl & _ & Ht). vm_compute in Hl.
    injection Hl as _ <-. lia.
Defined.

(** C1, as stated, fails: a callback that throws is invoked with the
    event, but the two assignments come after the call, so nothing is
    stored, and the identical event 100 ms later is delivered again. *)
Lemma throwing_listener_not_recorded :
  let qr := {| bc_type := "qr"; bc_data := "expo" |} in
  let first := _onObjectDetected (Some 7%nat) qr
                 (Throws (CodedError "E_LISTENER")) 1000 1001 mounted in
  first.1 = [(7%nat, qr)]
  ∧ _lastEvents first.2 !! "qr" = None
  ∧ _lastEventsTimes first.2 !! "qr" = None
  ∧ (_onObjectDetected (Some 7%nat) qr Returns 1100 1101 first.2).1
    = [(7%nat, qr)].
Proof. repeat split. Qed.

(** C5: handling an event of type [t] writes only the entries of the two
    caches keyed by [t], and whether the callback is invoked depends on
    these entries only; so an event of another type handled before changes
    nothing to what happens to this one. *)
Theorem throttle_cache_per_type `{NativeEvent Event} (this : instance)
    (cb : option nat) (e : Event) (result : outcome) (now stamp : Z) :
  (∀ t : string, t ≠ event_type e →
     _lastEvents (_onObjectDetected cb e result now stamp this).2 !! t
       = _lastEvents this !! t
     ∧ _lastEventsTimes (_onObjectDetected cb e result now stamp this).2 !! t
       = _lastEventsTimes this !! t)
  ∧ (∀ other : instance,
       _lastEvents other !! event_type e = _lastEvents this !! event_type e →
       _lastEventsTimes other !! event_type e
         = _lastEventsTimes this !! event_type e →
       (_onObjectDetected cb e result now stamp other).1
         = (_onObjectDetected cb e result now stamp this).1)
  ∧ (∀ cb0 (e0 : Event) result0 now0 stamp0,
       event_type e0 ≠ event_type e →
       (_onObjectDetected cb e result now stamp
          (_onObjectDetected cb0 e0 result0 now0 stamp0 this).2).1
         = (_onObjectDetected cb e result now stamp this).1).
Proof.
  assert (L : ∀ other : instance,
       _lastEvents other !! event_type e = _lastEvents this !! event_type e →
       _lastEventsTimes other !! event_type e
         = _lastEventsTimes this !! event_type e →
       (_onObjectDetected cb e result now stamp other).1
         = (_onObjectDetected cb e result now stamp this).1).
  { intros other H1 H2. unfold _onObjectDetected.
    rewrite (throttled_local e now other this H1 H2).
    destruct (throttled e now this); [done|]. by destruct cb. }
  split; [|split; [exact L|]].
  - intros t Ht. by apply _onObjectDetected_other_type.
  - intros cb0 e0 result0 now0 stamp0 Hne.
    destruct (_onObjectDetected_other_type cb0 e0 result0 now0 stamp0 this
                (event_type e)) as [H1 H2]; [congruence|].
    by apply L.
Qed.

Lemma throttle_cache_per_type_witness :
  let qr := {| bc_type := "qr"; bc_data := "expo" |} in
  let ean := {| bc_type := "ean13"; bc_data := "4006381333931" |} in
  (_onObjectDetected (Some 7%nat) qr Returns 1200 1201
     (_onObjectDetected (Some 7%nat) ean Returns 1000 1001 mounted).2).1
  = (_onObjectDetected (Some 7%nat) qr Returns 1200 1201 mounted).1.
Proof.
  intros qr ean.
  apply (proj2 (proj2 (throttle_cache_per_type mounted (Some 7%nat) qr
                         Returns 1200 1201))).
  discriminate.
Defined.

(** ** The command bridge *)

Module BridgeFacts.
Import Bridge.

Implicit Types (b : bridge) (id c : nat) (t : list event) (cmd : command).

Lemma submitted_of_app c t t' :
  submitted_of c (t ++ t') = submitted_of c t ++ submitted_of c t'.
Proof. apply omap_app. Qed.

Lemma executed_of_app c t t' :
  executed_of c (t ++ t') = executed_of c t ++ executed_of c t'.
Proof. apply omap_app. Qed.

Lemma submitted_of_resolve c cmd r : submitted_of c (resolve cmd r) = [].
Proof. unfold resolve. by destruct (cmd_channel cmd). Qed.

Lemma executed_of_resolve c cmd r : executed_of c (resolve cmd r) = [].
Proof. unfold resolve. by destruct (cmd_channel cmd). Qed.

Lemma submitted_of_Submitted c cmd :
  submitted_of c [Submitted cmd]
  = if decide (cmd_context cmd = c) then [cmd] else [].
Proof. unfold submitted_of. simpl. by case_decide. Qed.

Lemma executed_of_Executed c cmd :
  executed_of c [Executed cmd]
  = if decide (cmd_context cmd = c) then [cmd] else [].
Proof. unfold executed_of. simpl. by case_decide. Qed.

Lemma seq_0_nil n : @nil nat = seq 0 n → n = 0%nat.
Proof. by destruct n. Qed.

Lemma consistent_empty c : consistent c empty_bridge.
Proof.
  exists 0%nat, [], []. simpl. rewrite lookup_empty. by repeat split.
Qed.

Lemma consistent_key c b ctx :
  consistent c b → contexts b !! c = Some ctx → (c < next_context_id b)%nat.
Proof. intros (n & k & r & _ & _ & H) E. rewrite E in H. tauto. Qed.

Lemma consistent_create b :
  (∀ c, consistent c b) → ∀ c, consistent c (create b).2.
Proof.
  intros Hb c. destruct (Hb c) as (n & k & r & Hs & Hn & Hc).
  unfold create, consistent. simpl.
  destruct (decide (next_context_id b = c)) as [<-|Hne].
  - rewrite lookup_insert_eq.
    destruct (contexts b !! next_context_id b) as [ctx|] eqn:E.
    { destruct Hc as [Hlt _]. lia. }
    destruct Hc as [-> Hnil]. rewrite Hnil in * by lia.
    symmetry in Hs. apply app_eq_nil in Hs as [He Hk].
    apply app_eq_nil in Hk as [-> _].
    apply seq_0_nil in Hn as ->.
    exists 0%nat, [], []. rewrite He. simpl. repeat split; auto.
  - rewrite lookup_insert_ne by done.
    exists n, k, r. split; [done|]. split; [done|].
    destruct (contexts b !! c) as [ctx|].
    + destruct Hc as (? & ? & ? & ? & ?). repeat split; auto.
    + destruct Hc as [? Hnil]. split; [done|]. intros ?. apply Hnil. lia.
Qed.

Lemma consistent_submit i op ch b :
  (∀ c, consistent c b) → ∀ c, consistent c (submit i op ch b).2.
Proof.
  intros Hb c. unfold submit.
  destruct (contexts b !! i) as [ctx|] eqn:E; [|apply Hb].
  destruct (disposed ctx) eqn:Ed; [apply Hb|].
  destruct (Hb c) as (n & k & r & Hs & Hn & Hc).
  unfold consistent. simpl.
  rewrite submitted_of_app, executed_of_app, submitted_of_Submitted. simpl.
  rewrite app_nil_r.
  destruct (decide (i = c)) as [->|Hne].
  - rewrite lookup_insert_eq. rewrite E in Hc.
    destruct Hc as (Hlt & -> & -> & Hk & Htag). rewrite (Hk Ed) in *.
    exists (S (next_seq ctx)), [], (queue ctx ++ [{| cmd_context := c; cmd_op := op;
                                 cmd_seq := next_seq ctx; cmd_channel := ch |}]).
    split; [by rewrite Hs, !app_assoc|].
    split; [by rewrite map_app, Hn, seq_S|].
    repeat split; auto. apply Forall_app. split; [done|]. by constructor.
  - rewrite lookup_insert_ne, app_nil_r by done.
    exists n, k, r. auto.
Qed.

Lemma consistent_dispatch i native b :
  (∀ c, consistent c b) → ∀ c, consistent c (dispatch i native b).
Proof.
  intros Hb c. unfold dispatch.
  destruct (contexts b !! i) as [ctx|] eqn:E; [|apply Hb].
  destruct (queue ctx) as [|cmd rest] eqn:Eq; [apply Hb|].
  assert (Hi : cmd_context cmd = i).
  { destruct (Hb i) as (? & ? & ? & _ & _ & Hc). rewrite E, Eq in Hc.
    destruct Hc as (_ & _ & _ & _ & Htag). by inversion Htag. }
  destruct (Hb c) as (n & k & r & Hs & Hn & Hc).
  unfold consistent. simpl. rewrite submitted_of_app, executed_of_app.
  destruct (decide (i = c)) as [->|Hne].
  - rewrite lookup_insert_eq. rewrite E, Eq in Hc. simpl.
    destruct Hc as (Hlt & -> & -> & Hk & Htag).
    apply Forall_cons in Htag as [_ Htag].
    destruct (disposed ctx) eqn:Ed.
    + rewrite submitted_of_resolve, executed_of_resolve, !app_nil_r.
      exists (next_seq ctx), (k ++ [cmd]), rest.
      split; [by rewrite Hs, <- !app_assoc|]. by repeat split.
    + rewrite (Hk eq_refl) in *. simpl in Hs.
      change (Executed cmd :: ?l) with ([Executed cmd] ++ l).
      rewrite submitted_of_app, executed_of_app, submitted_of_resolve,
        executed_of_resolve, executed_of_Executed, decide_True by done.
      simpl. rewrite !app_nil_r.
      exists (next_seq ctx), [], rest.
      split; [by rewrite Hs, <- app_assoc|]. by repeat split.
  - rewrite lookup_insert_ne by done.
    assert (Hquiet : ∀ new,
               new = resolve cmd ContextLost
               ∨ (∃ r', new = Executed cmd :: resolve cmd r') →
               submitted_of c new = [] ∧ executed_of c new = []).
    { intros new [->|[r' ->]].
      - by rewrite submitted_of_resolve, executed_of_resolve.
      - change (Executed cmd :: ?l) with ([Executed cmd] ++ l).
        rewrite submitted_of_app, executed_of_app, submitted_of_resolve,
          executed_of_resolve, executed_of_Executed, decide_False by congruence.
        done. }
    match goal with |- context [submitted_of c (if ?d then ?x else ?y)] =>
      destruct (Hquiet (if d then x else y)) as [-> ->] end.
    { destruct (disposed ctx); eauto. }
    rewrite !app_nil_r. exists n, k, r. auto.
Qed.

Lemma consistent_dispose i b :
  (∀ c, consistent c b) → ∀ c, consistent c (dispose i b).
Proof.
  intros Hb c. unfold dispose.
  destruct (contexts b !! i) as [ctx|] eqn:E; [|apply Hb].
  destruct (disposed ctx) eqn:Ed; [apply Hb|].
  destruct (Hb c) as (n & k & r & Hs & Hn & Hc).
  unfold consistent. simpl. rewrite submitted_of_app, executed_of_app.
  simpl. rewrite !app_nil_r. exists n, k, r.
  split; [done|]. split; [done|].
  destruct (decide (i = c)) as [->|Hne].
  - rewrite lookup_insert_eq. rewrite E in Hc. simpl.
    destruct Hc as (? & ? & ? & ? & ?). by repeat split.
  - by rewrite lookup_insert_ne.
Qed.

Lemma consistent_release i b :
  (∀ c, consistent c b) → ∀ c, consistent c (release i b).
Proof.
  intros Hb c. unfold release.
  destruct (contexts b !! i) as [ctx|] eqn:E; [|apply Hb].
  destruct (queue ctx) as [|cmd rest] eqn:Eq; [|apply Hb].
  destruct (disposed ctx) eqn:Ed; [|apply Hb].
  destruct (Hb c) as (n & k & r & Hs & Hn & Hc).
  unfold consistent. simpl. rewrite submitted_of_app, executed_of_app.
  simpl. rewrite !app_nil_r. exists n, k, r.
  split; [done|]. split; [done|].
  destruct (decide (i = c)) as [->|Hne].
  - rewrite lookup_delete_eq. rewrite E, Eq in Hc.
    destruct Hc as (? & ? & ? & ? & ?). split; [done|]. lia.
  - by rewrite lookup_delete_ne.
Qed.

Lemma consistent_drain n i b :
  (∀ c, consistent c b) → ∀ c, consistent c (drain n i b).
Proof.
  revert b. induction n as [|n IH]; intros b Hb; [exact Hb|].
  simpl. by apply IH, consistent_dispatch.
Qed.

Lemma consistent_destroy i b :
  (∀ c, consistent c b) → ∀ c, consistent c (destroy i b).
Proof.
  intros Hb. unfold destroy.
  destruct (contexts b !! i) as [ctx|]; [|exact Hb].
  by apply consistent_release, consistent_drain, consistent_dispose.
Qed.

Lemma consistent_step a b :
  (∀ c, consistent c b) → ∀ c, consistent c (step a b).
Proof.
  destruct a; cbn [step];
    [ apply consistent_create | apply consistent_submit
    | apply consistent_dispatch | apply consistent_dispose
    | apply consistent_release | apply consistent_destroy ].
Qed.

Lemma consistent_run l b :
  (∀ c, consistent c b) → ∀ c, consistent c (run l b).
Proof.
  revert b. induction l as [|a l IH]; intros b Hb; [exact Hb|].
  simpl. by apply IH, consistent_step.
Qed.

Lemma seq_sorted (n m : nat) : StronglySorted lt (seq m n).
Proof.
  revert m. induction n as [|n IH]; intros m; simpl; constructor; [apply IH|].
  apply Forall_forall. intros x Hx. apply elem_of_seq in Hx. lia.
Qed.

(** C6: the commands of one context are executed in the order they were
    submitted, each at most once and none before an earlier one: in any
    interleaving of calls, dispatcher steps and teardowns, the commands
    executed are an initial part of the commands submitted, they are all
    of them once a live context has an empty queue, and the sequence
    numbers of the submitted commands strictly increase. *)
Theorem dispatcher_fifo (l : list action) (c : nat) :
  let b := run l empty_bridge in
  executed_of c (trace b) `prefix_of` submitted_of c (trace b)
  ∧ StronglySorted lt (map cmd_seq (submitted_of c (trace b)))
  ∧ (∀ ctx, contexts b !! c = Some ctx → disposed ctx = false →
       submitted_of c (trace b) = executed_of c (trace b) ++ queue ctx).
Proof.
  intros b.
  destruct (consistent_run l empty_bridge consistent_empty c)
    as (n & k & r & Hs & Hn & Hc).
  fold b in Hs, Hn, Hc.
  split; [by exists (k ++ r)|].
  split; [rewrite Hn; apply seq_sorted|].
  intros ctx E Ed. rewrite E in Hc.
  destruct Hc as (_ & -> & _ & Hk & _). by rewrite Hs, (Hk Ed).
Qed.

Lemma dispatcher_fifo_witness :
  let l := [Create; Submit 0 "clear" true; Submit 0 "drawArrays" false;
            Dispatch 0 (inl 1); Dispatch 0 (inr 1282)] in
  submitted_of 0 (trace (run l empty_bridge))
  = executed_of 0 (trace (run l empty_bridge)) ++ [].
Proof.
  intros l.
  apply (proj2 (proj2 (dispatcher_fifo l 0))
           {| queue := []; next_seq := 2; disposed := false |});
    reflexivity.
Defined.

(** *** Teardown *)

Lemma after_disposal_app_in c t new :
  Disposed c ∈ t → after_disposal c (t ++ new) = after_disposal c t ++ new.
Proof.
  induction t as [|e t IH]; intros Hin; [by apply elem_of_nil in Hin|].
  apply elem_of_cons in Hin.
  destruct e as [| | |id|]; simpl;
    try (destruct Hin as [|Hin]; [discriminate | by apply IH]).
  case_decide as Hid; [done|].
  destruct Hin as [[= ->]|Hin]; [done | by apply IH].
Qed.

Lemma after_disposal_app_notin c t new :
  Disposed c ∉ t → after_disposal c (t ++ new) = after_disposal c new.
Proof.
  induction t as [|e t IH]; intros Hin; [done|].
  apply not_elem_of_cons in Hin as [Hne Hin].
  destruct e as [| | |id|]; simpl; try by apply IH.
  case_decide as Hid; [congruence | by apply IH].
Qed.

Lemma after_disposal_notin c t : Disposed c ∉ t → after_disposal c t = [].
Proof.
  intros Hin. rewrite <- (app_nil_r t). by rewrite after_disposal_app_notin.
Qed.

Lemma Disposed_not_resolve c cmd r : Disposed c ∉ resolve cmd r.
Proof.
  unfold resolve. destruct (cmd_channel cmd).
  - intros [=]%list_elem_of_singleton.
  - apply not_elem_of_nil.
Qed.

(** How [torn_down] carries over to a bridge whose trace has grown. *)
Lemma torn_down_extend c b b' new :
  trace b' = trace b ++ new →
  torn_down c b →
  (Disposed c ∈ trace b →
     (c < next_context_id b)%nat →
     (∀ ctx, contexts b !! c = Some ctx → disposed ctx = true) →
     executed_of c new = []
     ∧ (c < next_context_id b')%nat
     ∧ ∀ ctx, contexts b' !! c = Some ctx → disposed ctx = true) →
  (Disposed c ∉ trace b → Disposed c ∈ new →
     executed_of c (after_disposal c new) = []
     ∧ (c < next_context_id b')%nat
     ∧ ∀ ctx, contexts b' !! c = Some ctx → disposed ctx = true) →
  torn_down c b'.
Proof.
  intros Ht [Hex Hst] Hold Hnew. unfold torn_down. rewrite Ht.
  destruct (decide (Disposed c ∈ trace b)) as [Hin|Hin].
  - destruct (Hst Hin) as [Hlt Hflag].
    destruct (Hold Hin Hlt Hflag) as (Hq & Hlt' & Hflag').
    rewrite after_disposal_app_in, executed_of_app, Hex, Hq by done.
    by split.
  - rewrite after_disposal_app_notin by done.
    destruct (decide (Disposed c ∈ new)) as [Hin'|Hin'].
    + destruct (Hnew Hin Hin') as (Hq & Hlt' & Hflag'). by split.
    + rewrite after_disposal_notin by done. split; [done|].
      intros [?|?]%elem_of_app; contradiction.
Qed.

Lemma torn_down_empty c : torn_down c empty_bridge.
Proof. split; [done|]. intros Hin. by apply elem_of_nil in Hin. Qed.

Lemma torn_down_create c b : torn_down c b → torn_down c (create b).2.
Proof.
  intros Hb.
  apply (torn_down_extend c b _ []);
    [simpl; by rewrite app_nil_r | exact Hb | |]; simpl.
  - intros _ Hlt Hflag. split; [done|]. split; [lia|].
    intros ctx. rewrite lookup_insert_ne by lia. apply Hflag.
  - intros _ Hin. by apply elem_of_nil in Hin.
Qed.

Lemma torn_down_submit i op ch c b :
  torn_down c b → torn_down c (submit i op ch b).2.
Proof.
  intros Hb. unfold submit.
  destruct (contexts b !! i) as [ctx|] eqn:E; [|exact Hb].
  destruct (disposed ctx) eqn:Ed; [exact Hb|].
  eapply (torn_down_extend c b); [reflexivity | exact Hb | |]; simpl.
  - intros _ Hlt Hflag. split; [done|]. split; [done|].
    intros ctx'. destruct (decide (i = c)) as [->|Hne].
    + rewrite (Hflag _ E) in Ed. discriminate.
    + rewrite lookup_insert_ne by done. apply Hflag.
  - intros _ [=]%list_elem_of_singleton.
Qed.

Lemma torn_down_dispatch i native c b :
  (∀ c', consistent c' b) → torn_down c b → torn_down c (dispatch i native b).
Proof.
  intros Hw Hb. unfold dispatch.
  destruct (contexts b !! i) as [ctx|] eqn:E; [|exact Hb].
  destruct (queue ctx) as [|cmd rest] eqn:Eq; [exact Hb|].
  assert (Hi : cmd_context cmd = i).
  { destruct (Hw i) as (? & ? & ? & _ & _ & Hc). rewrite E, Eq in Hc.
    destruct Hc as (_ & _ & _ & _ & Htag). by inversion Htag. }
  eapply (torn_down_extend c b); [reflexivity | exact Hb | |]; simpl.
  - intros _ Hlt Hflag. destruct (decide (i = c)) as [->|Hne].
    + rewrite (Hflag _ E), executed_of_resolve, lookup_insert_eq.
      split; [done|]. split; [done|]. by intros ? [= <-].
    + rewrite lookup_insert_ne by done. split; [|by split].
      destruct (disposed ctx); [apply executed_of_resolve|].
      change (Executed cmd :: ?l) with ([Executed cmd] ++ l).
      by rewrite executed_of_app, executed_of_resolve, executed_of_Executed,
        decide_False by congruence.
  - intros _ Hin. exfalso. destruct (disposed ctx).
    + by apply Disposed_not_resolve in Hin.
    + apply elem_of_cons in Hin as [[=]|Hin].
      by apply Disposed_not_resolve in Hin.
Qed.

Lemma torn_down_dispose i c b :
  (∀ c', consistent c' b) → torn_down c b → torn_down c (dispose i b).
Proof.
  intros Hw Hb. unfold dispose.
  destruct (contexts b !! i) as [ctx|] eqn:E; [|exact Hb].
  destruct (disposed ctx) eqn:Ed; [exact Hb|].
  eapply (torn_down_extend c b); [reflexivity | exact Hb | |]; simpl.
  - intros _ Hlt Hflag. split; [done|]. split; [done|].
    destruct (decide (i = c)) as [->|Hne].
    + rewrite lookup_insert_eq. by intros ? [= <-].
    + by rewrite lookup_insert_ne.
  - intros _ [= ->]%list_elem_of_singleton. rewrite decide_True by done.
    split; [done|]. split; [by eapply consistent_key|].
    rewrite lookup_insert_eq. by intros ? [= <-].
Qed.

Lemma torn_down_release i c b : torn_down c b → torn_down c (release i b).
Proof.
  intros Hb. unfold release.
  destruct (contexts b !! i) as [ctx|] eqn:E; [|exact Hb].
  destruct (queue ctx) as [|cmd rest] eqn:Eq; [|exact Hb].
  destruct (disposed ctx) eqn:Ed; [|exact Hb].
  eapply (torn_down_extend c b); [reflexivity | exact Hb | |]; simpl.
  - intros _ Hlt Hflag. split; [done|]. split; [done|].
    destruct (decide (i = c)) as [->|Hne].
    + rewrite lookup_delete_eq. by intros ? [=].
    + by rewrite lookup_delete_ne.
  - intros _ [=]%list_elem_of_singleton.
Qed.

Lemma torn_down_drain n i c b :
  (∀ c', consistent c' b) → torn_down c b → torn_down c (drain n i b).
Proof.
  revert b. induction n as [|n IH]; intros b Hw Hb; [exact Hb|].
  simpl. apply IH; [by apply consistent_dispatch | by apply torn_down_dispatch].
Qed.

Lemma torn_down_step a c b :
  (∀ c', consistent c' b) → torn_down c b → torn_down c (step a b).
Proof.
  intros Hw Hb. destruct a as [|i op ch|i native|i|i|i]; cbn [step].
  - by apply torn_down_create.
  - by apply torn_down_submit.
  - by apply torn_down_dispatch.
  - by apply torn_down_dispose.
  - by apply torn_down_release.
  - unfold destroy. destruct (contexts b !! i) as [ctx|]; [|exact Hb].
    apply torn_down_release, torn_down_drain;
      [by apply consistent_dispose | by apply torn_down_dispose].
Qed.

Lemma torn_down_run l c b :
  (∀ c', consistent c' b) → torn_down c b → torn_down c (run l b).
Proof.
  revert b. induction l as [|a l IH]; intros b Hw Hb; [exact Hb|].
  simpl. apply IH; [by apply consistent_step | by apply torn_down_step].
Qed.

(** The three phases of [destroy] on a live context. *)
Lemma drain_disposed c (q : list command) (n : nat) b :
  contexts b !! c = Some {| queue := q; next_seq := n; disposed := true |} →
  drain (length q) c b
  = {| contexts :=
         <[c := {| queue := []; next_seq := n; disposed := true |}]>
           (contexts b);
       next_context_id := next_context_id b;
       trace := trace b ++ flat_map (λ cmd, resolve cmd ContextLost) q |}.
Proof.
  revert b. induction q as [|cmd q IH]; intros b E.
  - destruct b as [m k t]. simpl in *.
    by rewrite insert_id, app_nil_r.
  - simpl. unfold dispatch at 1. rewrite E. simpl.
    rewrite IH; simpl; [|by rewrite lookup_insert_eq].
    by rewrite insert_insert_eq, <- app_assoc.
Qed.

Lemma destroy_live c ctx b :
  contexts b !! c = Some ctx → disposed ctx = false →
  destroy c b
  = {| contexts := delete c (contexts b);
       next_context_id := next_context_id b;
       trace := trace b ++ Disposed c ::
                  flat_map (λ cmd, resolve cmd ContextLost) (queue ctx)
                  ++ [Released c] |}.
Proof.
  intros E Ed. unfold destroy. rewrite E. unfold dispose. rewrite E, Ed.
  rewrite (drain_disposed c (queue ctx) (next_seq ctx));
    simpl; [|by rewrite lookup_insert_eq].
  unfold release. simpl. rewrite lookup_insert_eq. simpl.
  rewrite insert_insert_eq, delete_insert_eq, <- !app_assoc. reflexivity.
Qed.

Lemma executed_of_cancelled c (q : list command) :
  executed_of c (flat_map (λ cmd, resolve cmd ContextLost) q) = [].
Proof.
  induction q as [|cmd q IH]; [done|].
  simpl. by rewrite executed_of_app, executed_of_resolve, IH.
Qed.

(** C7: destroying a live context that has [N] commands queued flags it
    disposed, resolves the completion channel of each of the [N]
    commands with [ContextLost], executes none of them and forgets the
    context; and in any interleaving no command of a context is executed
    after the context was flagged disposed. *)
Theorem destroy_cancels_queue (l : list action) (c : nat) (ctx : context) :
  let b := run l empty_bridge in
  (contexts b !! c = Some ctx → disposed ctx = false →
     trace (destroy c b)
       = trace b ++ Disposed c ::
           flat_map (λ cmd, resolve cmd ContextLost) (queue ctx)
           ++ [Released c]
     ∧ (∀ cmd, cmd ∈ queue ctx → cmd_channel cmd = true →
          Resolved cmd ContextLost ∈ trace (destroy c b))
     ∧ executed_of c (trace (destroy c b)) = executed_of c (trace b)
     ∧ contexts (destroy c b) !! c = None)
  ∧ executed_of c (after_disposal c (trace b)) = [].
Proof.
  intros b. split.
  - intros E Ed. rewrite (destroy_live c ctx b E Ed). simpl.
    split; [reflexivity|]. split; [|split].
    + intros cmd Hin Hch. apply elem_of_app. right.
      apply elem_of_cons. right. apply elem_of_app. left.
      apply list_elem_of_In, in_flat_map. exists cmd.
      split; [by apply list_elem_of_In|].
      unfold resolve. rewrite Hch. by left.
    + change (Disposed c :: ?l) with ([Disposed c] ++ l).
      rewrite !executed_of_app, executed_of_cancelled. simpl.
      by rewrite app_nil_r.
    + apply lookup_delete_eq.
  - apply (torn_down_run l c empty_bridge);
      [apply consistent_empty | apply torn_down_empty].
Qed.

Lemma destroy_cancels_queue_witness :
  let l := [Create; Submit 0 "setViewport" false; Submit 0 "clear" true;
            Submit 0 "drawArrays" true; Dispatch 0 (inl 0)] in
  let clear := {| cmd_context := 0; cmd_op := "clear"; cmd_seq := 1;
                  cmd_channel := true |} in
  let draw := {| cmd_context := 0; cmd_op := "drawArrays"; cmd_seq := 2;
                 cmd_channel := true |} in
  trace (destroy 0 (run l empty_bridge))
  = trace (run l empty_bridge)
      ++ [Disposed 0; Resolved clear ContextLost; Resolved draw ContextLost;
          Released 0].
Proof.
  intros l clear draw.
  apply (proj1 (destroy_cancels_queue l 0
                  {| queue := [clear; draw]; next_seq := 3;
                     disposed := false |}));
    reflexivity.
Defined.

End BridgeFacts.

(** * Further properties of the code *)

Import CameraApi.

(** ** The registry and the counter over whole histories *)

Section RegistryHistories.
Implicit Types (st : module_state) (l : list action) (id : Z).

Lemma is_object_inv v : is_object v = true → ∃ o, v = VObj o.
Proof.
  unfold is_object. destruct v; simpl; rewrite ?andb_false_r;
    try discriminate; eauto.
Qed.

Lemma ensurePictureOptions_effect options st :
  (ensurePictureOptions options st).2
  = if has_callback options then
      {| _PICTURE_SAVED_CALLBACKS :=
           <[_GLOBAL_PICTURE_ID st := get (fields options) "onPictureSaved"]>
             (_PICTURE_SAVED_CALLBACKS st);
         _GLOBAL_PICTURE_ID := _GLOBAL_PICTURE_ID st + 1 |}
    else st.
Proof.
  unfold has_callback. destruct (is_object options) eqn:Ho; simpl.
  - destruct (is_object_inv _ Ho) as [o ->]. simpl.
    rewrite ensurePictureOptions_object.
    by destruct (truthy (get o "onPictureSaved")).
  - by rewrite ensurePictureOptions_not_object.
Qed.

Lemma registry_ok_initial : registry_ok initial.
Proof.
  split; [simpl; lia|]. intros k v Hv. simpl in Hv.
  by rewrite lookup_empty in Hv.
Qed.

Lemma registry_ok_step a st : registry_ok st → registry_ok (step a st).2.
Proof.
  intros [H1 Hk]. destruct a as [options|id data result].
  - cbn [step snd]. rewrite ensurePictureOptions_effect.
    destruct (has_callback options) eqn:Hc; [|by split].
    split; simpl; [lia|]. intros k v.
    destruct (decide (_GLOBAL_PICTURE_ID st = k)) as [<-|Hne].
    + rewrite lookup_insert_eq. intros [= <-]. split; [lia|].
      unfold has_callback in Hc. by apply andb_true_iff in Hc as [_ ?].
    + rewrite lookup_insert_ne by done. intros Hv.
      destruct (Hk k v Hv). split; [lia | done].
  - destruct (step_PictureSaved_state id data result st) as [->|[_ ->]];
      [by split|].
    split; [done|]. simpl. intros k v.
    destruct (decide (id = k)) as [->|Hne].
    + by rewrite lookup_delete_eq.
    + rewrite lookup_delete_ne by done. apply Hk.
Qed.

Lemma registry_ok_run l st : registry_ok st → registry_ok (run l st).2.
Proof.
  revert st. induction l as [|a l IH]; intros st Hk; [exact Hk|].
  rewrite run_cons. simpl. by apply IH, registry_ok_step.
Qed.

Lemma run_counter_exact l st :
  _GLOBAL_PICTURE_ID (run l st).2
  = _GLOBAL_PICTURE_ID st + Z.of_nat (callbacks_requested l).
Proof.
  revert st. induction l as [|a l IH]; intros st; [simpl; lia|].
  rewrite run_cons. cbn [snd]. rewrite IH.
  destruct a as [options|id data result].
  - cbn [step snd callbacks_requested]. rewrite ensurePictureOptions_effect.
    destruct (has_callback options); simpl; lia.
  - cbn [callbacks_requested].
    by destruct (step_PictureSaved_state id data result st) as [->|[_ ->]].
Qed.

End RegistryHistories.

(** X1: after any history of [takePictureAsync] calls and
    [onPictureSaved] events, the counter is one more than the number of
    calls that registered a callback, every key of the registry is an
    identifier between [1] and the counter, and every stored value is
    truthy. *)
Theorem picture_id_accounting (l : list action) :
  let st := (run l initial).2 in
  _GLOBAL_PICTURE_ID st = 1 + Z.of_nat (callbacks_requested l)
  ∧ ∀ (k : Z) (v : value),
      _PICTURE_SAVED_CALLBACKS st !! k = Some v →
      1 ≤ k < _GLOBAL_PICTURE_ID st ∧ truthy v = true.
Proof.
  intros st. split; [apply run_counter_exact|].
  apply (registry_ok_run l initial registry_ok_initial).
Qed.

Lemma picture_id_accounting_witness :
  let l := [TakePicture (VObj {["onPictureSaved" := VFun 3]});
            TakePicture VNull;
            TakePicture (VObj {["onPictureSaved" := VFun 4]});
            PictureSaved 1 VNull Returns] in
  1 ≤ 2 < _GLOBAL_PICTURE_ID (run l initial).2 ∧ truthy (VFun 4) = true.
Proof.
  intros l.
  apply (proj2 (picture_id_accounting l) 2 (VFun 4)). reflexivity.
Defined.

(** X2: in a state reached from the initial one, an [onPictureSaved]
    event returns without invoking anything and without raising exactly
    when the registry has no entry for its id. *)
Theorem picture_saved_silent_iff_absent (before : list action) (id : Z)
    (data : value) (result : outcome) :
  let st := (run before initial).2 in
  _onPictureSaved id data result st = ([], Normal st)
  ↔ _PICTURE_SAVED_CALLBACKS st !! id = None.
Proof.
  intros st.
  destruct (registry_ok_run before initial registry_ok_initial) as [_ Hk].
  fold st in Hk. unfold _onPictureSaved.
  destruct (_PICTURE_SAVED_CALLBACKS st !! id) as [v|] eqn:E; simpl.
  - destruct (Hk id v E) as [_ ->]. split; [|discriminate].
    by destruct v.
  - done.
Qed.

Lemma picture_saved_silent_iff_absent_witness :
  let before := [TakePicture (VObj {["onPictureSaved" := VFun 3]})] in
  _onPictureSaved 2 VNull Returns (run before initial).2
  = ([], Normal (run before initial).2).
Proof.
  intros before.
  apply (proj2 (picture_saved_silent_iff_absent before 2 VNull Returns)).
  reflexivity.
Defined.

(** X3: registering a function and receiving the event for the id handed
    out is a round trip when the function returns: the record returned
    carries the value of the counter as [id], and the event carrying that
    id invokes the function on the event's data and leaves the registry
    exactly as it was before the registration, with the counter advanced
    by one.  When the function throws, the event is left by its exception
    after the one invocation. *)
Theorem register_then_saved_round_trip (before : list action)
    (o : gmap string value) (f : nat) (data : value) :
  get o "onPictureSaved" = VFun f →
  let st := (run before initial).2 in
  let r := ensurePictureOptions (VObj o) st in
  get r.1 "id" = VNum (inject_Z (_GLOBAL_PICTURE_ID st))
  ∧ _onPictureSaved (_GLOBAL_PICTURE_ID st) data Returns r.2
    = ([(f, data)],
       Normal {| _PICTURE_SAVED_CALLBACKS := _PICTURE_SAVED_CALLBACKS st;
                 _GLOBAL_PICTURE_ID := _GLOBAL_PICTURE_ID st + 1 |})
  ∧ ∀ e, _onPictureSaved (_GLOBAL_PICTURE_ID st) data (Throws e) r.2
         = ([(f, data)], Throw e).
Proof.
  intros Hf st r.
  pose proof (run_keys_below before initial keys_below_initial) as Hk.
  fold st in Hk. subst r. rewrite ensurePictureOptions_object, Hf. simpl.
  split; [|split].
  - unfold get. rewrite lookup_insert_ne by discriminate.
    by rewrite lookup_insert_eq.
  - unfold _onPictureSaved. simpl. rewrite lookup_insert_eq. simpl.
    rewrite delete_insert_id; [reflexivity|]. apply Hk. lia.
  - intros e. unfold _onPictureSaved. simpl. by rewrite lookup_insert_eq.
Qed.

Lemma register_then_saved_round_trip_witness :
  let r := ensurePictureOptions (VObj {["onPictureSaved" := VFun 3]}) initial in
  get r.1 "id" = VNum (inject_Z 1)
  ∧ _onPictureSaved 1 (VStr "a.jpg") Returns r.2
    = ([(3%nat, VStr "a.jpg")],
       Normal {| _PICTURE_SAVED_CALLBACKS := ∅; _GLOBAL_PICTURE_ID := 1 + 1 |})
  ∧ ∀ e, _onPictureSaved 1 (VStr "a.jpg") (Throws e) r.2
         = ([(3%nat, VStr "a.jpg")], Throw e).
Proof.
  intros r.
  apply (register_then_saved_round_trip [] {["onPictureSaved" := VFun 3]}
           3%nat (VStr "a.jpg")).
  reflexivity.
Defined.

Lemma step_keeps_non_function a (id : Z) (v : value) (st : module_state) :
  (∀ f, v ≠ VFun f) →
  id < _GLOBAL_PICTURE_ID st →
  _PICTURE_SAVED_CALLBACKS st !! id = Some v →
  id < _GLOBAL_PICTURE_ID (step a st).2
  ∧ _PICTURE_SAVED_CALLBACKS (step a st).2 !! id = Some v
  ∧ invocations_for id (step a st).1 = [].
Proof.
  intros Hv Hlt E. destruct a as [options|id' data result].
  - cbn [step fst snd]. rewrite ensurePictureOptions_effect.
    destruct (has_callback options); simpl; [|done].
    rewrite lookup_insert_ne by lia. split; [lia | done].
  - rewrite step_PictureSaved.
    destruct (_PICTURE_SAVED_CALLBACKS st !! id') as [[]|] eqn:E'; try done.
    cbn [fst snd]. destruct (decide (id' = id)) as [->|Hne].
    + rewrite E in E'. injection E' as ->. by destruct (Hv f).
    + assert (Hs : invocations_for id [(id', f, data, result)] = [])
        by (unfold invocations_for; by rewrite filter_cons_False).
      destruct (returned result); simpl; [|done].
      by rewrite lookup_delete_ne.
Qed.

Lemma run_keeps_non_function l (id : Z) (v : value) (st : module_state) :
  (∀ f, v ≠ VFun f) →
  id < _GLOBAL_PICTURE_ID st →
  _PICTURE_SAVED_CALLBACKS st !! id = Some v →
  _PICTURE_SAVED_CALLBACKS (run l st).2 !! id = Some v
  ∧ invocations_for id (run l st).1 = [].
Proof.
  intros Hv. revert st. induction l as [|a l IH]; intros st Hlt E; [done|].
  rewrite run_cons. cbn [fst snd]. rewrite invocations_for_app.
  destruct (step_keeps_non_function a id v st Hv Hlt E) as (Hlt' & E' & ->).
  by apply IH.
Qed.

(** X4: a truthy [onPictureSaved] that is not a function is registered
    like any other, and its entry is never removed: whatever happens
    later, the entry is still there, an event carrying its id raises a
    [TypeError], and no event carrying its id invokes anything. *)
Theorem non_callable_entry_sticks (before later : list action) (id : Z)
    (v data : value) (result : outcome) :
  let st := (run before initial).2 in
  _PICTURE_SAVED_CALLBACKS st !! id = Some v →
  (∀ f, v ≠ VFun f) →
  _PICTURE_SAVED_CALLBACKS (run later st).2 !! id = Some v
  ∧ _onPictureSaved id data result (run later st).2 = ([], Throw TypeError)
  ∧ invocations_for id (run later st).1 = [].
Proof.
  intros st E Hv.
  destruct (registry_ok_run before initial registry_ok_initial) as [_ Hk].
  fold st in Hk. destruct (Hk id v E) as [[_ Hlt] Ht].
  destruct (run_keeps_non_function later id v st Hv Hlt E) as [E' Hsilent].
  split; [done|]. split; [|done].
  unfold _onPictureSaved. rewrite E'. simpl. rewrite Ht.
  destruct v; try reflexivity. by destruct (Hv f).
Qed.

Lemma non_callable_entry_sticks_witness :
  let before := [TakePicture (VObj {["onPictureSaved" := VStr "done"]})] in
  let later := [PictureSaved 1 VNull Returns;
                TakePicture (VObj {["onPictureSaved" := VFun 3]})] in
  let st := (run before initial).2 in
  _PICTURE_SAVED_CALLBACKS (run later st).2 !! 1 = Some (VStr "done")
  ∧ _onPictureSaved 1 VNull Returns (run later st).2 = ([], Throw TypeError)
  ∧ invocations_for 1 (run later st).1 = [].
Proof.
  intros before later st.
  apply (non_callable_entry_sticks before later 1 (VStr "done") VNull Returns);
    [reflexivity | discriminate].
Defined.

Lemma step_accounting a (st : module_state) :
  keys_below st →
  (size (_PICTURE_SAVED_CALLBACKS (step a st).2)
   + length (completed (step a st).1)
   = size (_PICTURE_SAVED_CALLBACKS st) + callbacks_requested [a])%nat.
Proof.
  intros Hk. destruct a as [options|id data result].
  - cbn [step fst snd callbacks_requested]. rewrite ensurePictureOptions_effect.
    destruct (has_callback options); simpl; [|lia].
    rewrite map_size_insert_None; [lia|]. apply Hk. lia.
  - rewrite step_PictureSaved. cbn [callbacks_requested].
    destruct (_PICTURE_SAVED_CALLBACKS st !! id) as [v|] eqn:E; [|simpl; lia].
    destruct v; try (simpl; lia). cbn [fst snd]. unfold completed.
    destruct (returned result) eqn:Er.
    + rewrite filter_cons_True by done. simpl.
      rewrite map_size_delete_Some by eauto.
      assert (size (_PICTURE_SAVED_CALLBACKS st) ≠ 0%nat)
        by (eapply map_size_ne_0_lookup_2; eauto).
      lia.
    + rewrite filter_cons_False by (simpl; congruence). simpl. lia.
Qed.

Lemma callbacks_requested_cons a l :
  callbacks_requested (a :: l)
  = (callbacks_requested [a] + callbacks_requested l)%nat.
Proof. destruct a; simpl; lia. Qed.

Lemma run_accounting l (st : module_state) :
  keys_below st →
  (size (_PICTURE_SAVED_CALLBACKS (run l st).2)
   + length (completed (run l st).1)
   = size (_PICTURE_SAVED_CALLBACKS st) + callbacks_requested l)%nat.
Proof.
  revert st. induction l as [|a l IH]; intros st Hk; [simpl; lia|].
  rewrite run_cons, callbacks_requested_cons. cbn [fst snd].
  rewrite completed_app, length_app.
  pose proof (IH _ (step_keys_below a st Hk)).
  pose proof (step_accounting a st Hk). lia.
Qed.

(** X16: entries leave the registry only by an invocation that returns.
    After any history, the callbacks still registered and the invocations
    that returned add up to the number of calls that registered a
    callback; a callback whose event never comes, or that throws, stays
    registered. *)
Theorem registry_accounting (l : list action) :
  (size (_PICTURE_SAVED_CALLBACKS (run l initial).2)
   + length (completed (run l initial).1)
   = callbacks_requested l)%nat.
Proof.
  rewrite (run_accounting l initial keys_below_initial). simpl.
  by rewrite map_size_empty.
Qed.

(** ** The prepared options record *)

Lemma with_quality_truthy (o : gmap string value) :
  truthy (get (with_quality o) "quality") = true.
Proof.
  rewrite get_with_quality.
  by destruct (truthy (get o "quality")) eqn:E.
Qed.

Lemma with_quality_fixed (o : gmap string value) :
  truthy (get o "quality") = true → with_quality o = o.
Proof. intros E. unfold with_quality. by rewrite E. Qed.

Lemma get_with_quality_other (o : gmap string value) (k : string) :
  k ≠ "quality" → get (with_quality o) k = get o k.
Proof. intros Hk. unfold get. by rewrite lookup_with_quality. Qed.

(** X5: preparing again a record that was prepared with a callback
    registers the callback a second time: the second result is the first
    with only [id] replaced by the next identifier, and the registry then
    holds the callback under both identifiers. *)
Theorem prepare_again_registers_again (o : gmap string value)
    (st : module_state) :
  truthy (get o "onPictureSaved") = true →
  let r1 := ensurePictureOptions (VObj o) st in
  let r2 := ensurePictureOptions (VObj r1.1) r1.2 in
  r2.1 = <["id" := VNum (inject_Z (_GLOBAL_PICTURE_ID st + 1))]> r1.1
  ∧ _PICTURE_SAVED_CALLBACKS r2.2
    = <[_GLOBAL_PICTURE_ID st + 1 := get o "onPictureSaved"]>
        (<[_GLOBAL_PICTURE_ID st := get o "onPictureSaved"]>
           (_PICTURE_SAVED_CALLBACKS st))
  ∧ _GLOBAL_PICTURE_ID r2.2 = _GLOBAL_PICTURE_ID st + 2.
Proof.
  intros Hc r1 r2. subst r2 r1.
  rewrite (ensurePictureOptions_object o), Hc. cbn [fst snd].
  set (m := <["fastMode" := VBool true]> _).
  assert (Hq : truthy (get m "quality") = true).
  { unfold m, get. rewrite !lookup_insert_ne by discriminate.
    apply with_quality_truthy. }
  assert (Hcb : get m "onPictureSaved" = get o "onPictureSaved").
  { unfold m, get. rewrite !lookup_insert_ne by discriminate.
    apply get_with_quality_other. discriminate. }
  rewrite ensurePictureOptions_object, (with_quality_fixed m Hq), Hcb, Hc.
  simpl. split; [|split; [reflexivity | lia]].
  apply map_eq. intros k. unfold m. rewrite !lookup_insert.
  repeat case_decide; congruence.
Qed.

Lemma prepare_again_registers_again_witness :
  let o : gmap string value := {["onPictureSaved" := VFun 3]} in
  let r1 := ensurePictureOptions (VObj o) initial in
  let r2 := ensurePictureOptions (VObj r1.1) r1.2 in
  r2.1 = <["id" := VNum (inject_Z (1 + 1))]> r1.1
  ∧ _PICTURE_SAVED_CALLBACKS r2.2
    = <[1 + 1 := get o "onPictureSaved"]> (<[1 := get o "onPictureSaved"]> ∅)
  ∧ _GLOBAL_PICTURE_ID r2.2 = 1 + 2.
Proof.
  intros o r1 r2.
  apply (prepare_again_registers_again o initial). reflexivity.
Defined.

(** X6: the record [ensurePictureOptions] returns always has a truthy
    [quality]; and when the argument registers no callback the module
    state is left as it was and the record is a fixed point: preparing it
    again returns it unchanged. *)
Theorem prepared_options_stable (options : value) (st : module_state) :
  let r := ensurePictureOptions options st in
  truthy (get r.1 "quality") = true
  ∧ (has_callback options = false →
     r.2 = st ∧ ensurePictureOptions (VObj r.1) st = r).
Proof.
  intros r. subst r. destruct (is_object options) eqn:Ho.
  - destruct (is_object_inv _ Ho) as [o ->].
    unfold has_callback. rewrite Ho. simpl.
    rewrite (ensurePictureOptions_object o).
    destruct (truthy (get o "onPictureSaved")) eqn:Hc; cbn [fst snd].
    + split; [|discriminate]. unfold get.
      rewrite !lookup_insert_ne by discriminate. apply with_quality_truthy.
    + split; [apply with_quality_truthy|]. intros _. split; [done|].
      rewrite ensurePictureOptions_object.
      rewrite get_with_quality_other, Hc by discriminate.
      by rewrite (with_quality_fixed _ (with_quality_truthy o)).
  - rewrite ensurePictureOptions_not_object by done. by repeat split.
Qed.

Lemma prepared_options_stable_witness :
  let r := ensurePictureOptions (VObj {["base64" := VBool true]}) initial in
  r.2 = initial ∧ ensurePictureOptions (VObj r.1) initial = r.
Proof.
  intros r.
  apply (proj2 (prepared_options_stable (VObj {["base64" := VBool true]})
                  initial)).
  reflexivity.
Defined.

(** ** Instance methods *)





Lemma ensureRecordingOptions_cases (options : value) :
  ensureRecordingOptions options
  = if is_object options then options else VObj ∅.
Proof.
  unfold ensureRecordingOptions, is_object.
  destruct (truthy options) eqn:Et; simpl; [|reflexivity].
  rewrite Et. simpl. by destruct (String.eqb (typeof options) "object").
Qed.

(** X9: [recordAsync] never hands anything but a non-null object to the
    view's [record]: the argument itself when it is one, the empty record
    otherwise; with no view mounted it resolves to [undefined]; and
    [ensureRecordingOptions] applied twice is the same as once. *)
Theorem recordAsync_hands_over_object (options : value) :
  (∀ view : CameraViewRef,
     ∃ o : gmap string value,
       recordAsync (Some view) options = await (record view (VObj o))
       ∧ (is_object options = true → options = VObj o)
       ∧ (is_object options = false → o = ∅))
  ∧ recordAsync None options = Fulfilled VUndefined
  ∧ ensureRecordingOptions (ensureRecordingOptions options)
    = ensureRecordingOptions options.
Proof.
  unfold recordAsync. rewrite ensureRecordingOptions_cases.
  destruct (is_object options) eqn:Ho.
  - destruct (is_object_inv _ Ho) as [o ->].
    split; [|by split]. intros view. exists o. by repeat split.
  - split; [|by split]. intros view. exists ∅. by repeat split.
Qed.

Lemma recordAsync_hands_over_object_witness :
  let view := {| takePicture := λ _, Pending;
                 record := λ ro, Fulfilled ro |} in
  ∃ o : gmap string value,
    recordAsync (Some view) (VNum 5) = await (record view (VObj o))
    ∧ (is_object (VNum 5) = true → VNum 5 = VObj o)
    ∧ (is_object (VNum 5) = false → o = ∅).
Proof.
  intros view.
  exact (proj1 (recordAsync_hands_over_object (VNum 5)) view).
Defined.

(** X10: [launchModernScanner] calls the native scanner at most once,
    on iOS only and always with a truthy argument, the bar code types
    defaulting to the empty list when the argument passed is falsy, and
    then settles as the native call does, a value becoming [undefined];
    on any other platform it makes no call and resolves to [undefined];
    it never resolves to anything but [undefined]. *)
Theorem launchModernScanner_platform (OS : string)
    (native : option (value → promise error value)) (options : value) :
  let out := launchModernScanner OS native options in
  (∀ arg, arg ∈ out.1 →
     OS = "ios" ∧ truthy arg = true
     ∧ arg = (if truthy options then options
              else VObj {["barCodeTypes" := VObj ∅]}))
  ∧ (length out.1 ≤ 1)%nat
  ∧ (∀ launch, OS = "ios" → native = Some launch →
       ∃ arg, out.1 = [arg]
              ∧ out.2 = match launch arg with
                        | Fulfilled _ => Fulfilled VUndefined
                        | Rejected e => Rejected e
                        | Pending => Pending
                        end)
  ∧ (OS ≠ "ios" → out = ([], Fulfilled VUndefined))
  ∧ (∀ v, out.2 = Fulfilled v → v = VUndefined).
Proof.
  intros out. subst out. unfold launchModernScanner.
  destruct (String.eqb_spec OS "ios") as [Hos|Hos].
  - destruct native as [launch|]; cbn [fst snd].
    + split; [|split; [simpl; lia | split; [|split]]].
      * intros arg ->%list_elem_of_singleton. split; [done|].
        by destruct (truthy options) eqn:Et.
      * intros launch' _ [= <-]. eexists. split; [reflexivity|].
        by destruct (launch _).
      * done.
      * intros v. destruct (await _); congruence.
    + split; [|split; [simpl; lia | split; [|split]]]; try done.
      intros arg Hin. by apply elem_of_nil in Hin.
  - cbn [fst snd]. split; [|split; [simpl; lia | split; [|split]]];
      try done; try congruence.
    intros arg Hin. by apply elem_of_nil in Hin.
Qed.

Lemma launchModernScanner_platform_witness :
  launchModernScanner "android" (Some (λ _, Rejected (CodedError "E_SCANNER")))
    VUndefined
  = ([], Fulfilled VUndefined)
  ∧ ∃ arg,
      (launchModernScanner "ios" (Some (λ _, Rejected (CodedError "E_SCANNER")))
         VUndefined).1 = [arg]
      ∧ (launchModernScanner "ios"
           (Some (λ _, Rejected (CodedError "E_SCANNER"))) VUndefined).2
        = Rejected (CodedError "E_SCANNER").
Proof.
  split.
  - apply (proj1 (proj2 (proj2 (proj2 (launchModernScanner_platform "android"
             (Some (λ _, Rejected (CodedError "E_SCANNER"))) VUndefined)))));
      discriminate.
  - exact (proj1 (proj2 (proj2 (launchModernScanner_platform "ios"
             (Some (λ _, Rejected (CodedError "E_SCANNER"))) VUndefined)))
             (λ _, Rejected (CodedError "E_SCANNER")) eq_refl eq_refl).
Defined.

(** ** More on the throttle *)

Section ThrottleHistories.
Context {Event : Type} `{NativeEvent Event}.
Implicit Types (e : Event) (this : instance) (log : list (Event * Z)).

Lemma last_delivered_type (t : string) log e tm :
  last_delivered t log = Some (e, tm) → event_type e = t.
Proof.
  induction log as [|[e0 t0] log IH]; [discriminate|].
  rewrite last_delivered_cons. case_decide; [|exact IH].
  by intros [= <- <-].
Qed.

Lemma throttled_same e now this (last : string) (lastTime : Z) :
  _lastEvents this !! event_type e = Some last →
  _lastEventsTimes this !! event_type e = Some lastTime →
  throttled e now this
  = negb (String.eqb last "") && String.eqb (JSON_stringify e) last
    && (now - lastTime <? EventThrottleMs).
Proof. intros H1 H2. unfold throttled. by rewrite H1, H2. Qed.

Lemma throttled_other_payload e now this :
  _lastEvents this !! event_type e ≠ Some (JSON_stringify e) →
  throttled e now this = false.
Proof.
  intros Hne. unfold throttled.
  destruct (_lastEvents this !! event_type e) as [last|]; [|done].
  destruct (_lastEventsTimes this !! event_type e) as [lastTime|]; [|done].
  destruct (String.eqb_spec (JSON_stringify e) last) as [<-|_]; [done|].
  by rewrite andb_false_r.
Qed.

End ThrottleHistories.

(** X11: after any history of detections on a fresh instance the two
    caches have the same keys, and the string stored for a type is the
    serialization of an event of that type. *)
Theorem caches_share_keys `{NativeEvent Event}
    (history : list (detection (Event := Event))) (t : string) :
  let this := (detect history [] mounted).2 in
  (_lastEvents this !! t = None ↔ _lastEventsTimes this !! t = None)
  ∧ (∀ s, _lastEvents this !! t = Some s →
       ∃ e, event_type e = t ∧ s = JSON_stringify e).
Proof.
  intros this.
  destruct (caches_follow_detect history [] mounted caches_follow_mounted t)
    as [He Ht].
  fold this in He, Ht. rewrite He, Ht.
  destruct (String.eqb t "__proto__"); [split; [done | discriminate]|].
  destruct (last_delivered t (detect history [] mounted).1)
    as [[e tm]|] eqn:E; simpl.
  - split; [split; discriminate|]. intros s [= <-]. exists e.
    split; [by eapply last_delivered_type | done].
  - split; [done | discriminate].
Qed.

Lemma caches_share_keys_witness :
  let history := [{| det_callback := Some 7%nat;
                     det_event := {| bc_type := "qr"; bc_data := "expo" |};
                     det_outcome := Returns;
                     det_now := 1000; det_stamp := 1001 |}] in
  ∃ e : barcode,
    event_type e = "qr"
    ∧ barcode_json {| bc_type := "qr"; bc_data := "expo" |} = JSON_stringify e.
Proof.
  intros history.
  apply (proj2 (caches_share_keys history "qr")). reflexivity.
Defined.

(** X12: the throttle window is anchored at the last delivery.  Once an
    event is stored with the time [stamp], identical events that arrive
    with a clock reading below [stamp + 500], however many and also with
    a clock that went back, are all dropped and leave the instance as it
    is; the same event arriving at [stamp + 500] or later is delivered. *)
Theorem throttle_window_anchored `{NativeEvent Event} (this : instance)
    (e : Event) (stamp : Z) (l : list (detection (Event := Event)))
    (log : list (Event * Z)) :
  JSON_stringify e ≠ "" →
  _lastEvents this !! event_type e = Some (JSON_stringify e) →
  _lastEventsTimes this !! event_type e = Some stamp →
  Forall (λ d, event_type (det_event d) = event_type e
               ∧ JSON_stringify (det_event d) = JSON_stringify e
               ∧ det_now d - stamp < 500) l →
  detect l log this = (log, this)
  ∧ ∀ (g : nat) (result : outcome) (now' stamp' : Z),
      500 ≤ now' - stamp →
      (_onObjectDetected (Some g) e result now' stamp'
         (detect l log this).2).1
      = [(g, e)].
Proof.
  intros Hne H1 H2 Hl.
  assert (Hd : detect l log this = (log, this)).
  { induction Hl as [|d l (Ht & Hs & Hw) _ IH]; [reflexivity|].
    cbn [detect]. unfold _onObjectDetected.
    rewrite <- Ht in H1, H2. rewrite <- Hs in H1.
    rewrite (throttled_same _ _ _ _ _ H1 H2), String.eqb_refl.
    apply String.eqb_neq in Hne. rewrite <- Hs in Hne. rewrite Hne.
    unfold EventThrottleMs. apply Z.ltb_lt in Hw. rewrite Hw. simpl.
    rewrite Ht, Hs in *.
    replace ((if returned (det_outcome d) then [] else []) ++ log)
      with log by (by destruct (returned (det_outcome d))).
    exact IH. }
  split; [exact Hd|]. intros g result now' stamp' Hw. rewrite Hd. cbn [snd].
  unfold _onObjectDetected. rewrite (throttled_same _ _ _ _ _ H1 H2).
  unfold EventThrottleMs. apply Z.ltb_ge in Hw. rewrite Hw.
  by rewrite andb_false_r.
Qed.

Lemma throttle_window_anchored_witness :
  let qr := {| bc_type := "qr"; bc_data := "expo" |} in
  let this := (_onObjectDetected (Some 7%nat) qr Returns 1000 1001 mounted).2 in
  let again now := {| det_callback := Some 7%nat; det_event := qr;
                      det_outcome := Returns;
                      det_now := now; det_stamp := now + 1 |} in
  let burst := [again 1100; again 1400; again 900; again 1500] in
  detect burst [] this = ([], this)
  ∧ ∀ (g : nat) (result : outcome) (now' stamp' : Z),
      500 ≤ now' - 1001 →
      (_onObjectDetected (Some g) qr result now' stamp'
         (detect burst [] this).2).1
      = [(g, qr)].
Proof.
  intros qr this again burst.
  apply (throttle_window_anchored this qr 1001 burst []);
    [discriminate | reflexivity | reflexivity |].
  repeat constructor; simpl; lia.
Defined.

(** X13: the throttle only ever compares with the last delivered event of
    a type.  In a run of events of one type other than [__proto__], each
    with a callback that returns and a serialization other than that of
    the event before it, every event is delivered, whatever the clock
    says. *)
Theorem changing_payloads_all_delivered `{NativeEvent Event} (t prev : string)
    (l : list (detection (Event := Event))) (log : list (Event * Z))
    (this : instance) :
  t ≠ "__proto__" →
  (∀ s, _lastEvents this !! t = Some s → s = prev) →
  changing t prev l →
  (detect l log this).1
  = rev (map (λ d, (det_event d, det_stamp d)) l) ++ log.
Proof.
  intros Hp. revert prev log this.
  induction l as [|d l IH]; intros prev log this Hprev Hl; [reflexivity|].
  destruct Hl as (Ht & Hs & [f Hf] & Hr & Hl).
  cbn [detect]. unfold _onObjectDetected.
  rewrite throttled_other_payload.
  2:{ rewrite Ht. intros Hlast. apply Hprev in Hlast. congruence. }
  rewrite Hf, Hr. cbn [returned map app].
  rewrite (IH (JSON_stringify (det_event d))); [|simpl|exact Hl].
  - cbn [map rev]. by rewrite <- app_assoc.
  - rewrite Ht, lookup_store_eq by done. by intros s [= <-].
Qed.

Lemma changing_payloads_all_delivered_witness :
  let a := {| bc_type := "qr"; bc_data := "left" |} in
  let b := {| bc_type := "qr"; bc_data := "right" |} in
  let see e now := {| det_callback := Some 7%nat; det_event := e;
                      det_outcome := Returns;
                      det_now := now; det_stamp := now |} in
  let l := [see a 1000; see b 1001; see a 1002; see b 1003] in
  (detect l [] mounted).1 = rev (map (λ d, (det_event d, det_stamp d)) l) ++ [].
Proof.
  intros a b see l.
  apply (changing_payloads_all_delivered "qr" "" l [] mounted).
  - discriminate.
  - intros s Hs. simpl in Hs. by rewrite lookup_empty in Hs.
  - simpl. repeat split; first [discriminate | by eexists].
Defined.

(** ** The disabled updates controller *)

Module UpdatesFacts.
Import Updates.

Lemma perform_all_cons o l c :
  perform_all (o :: l) c
  = ((perform o c).1 ++ (perform_all l (perform o c).2).1,
     (perform_all l (perform o c).2).2).
Proof.
  cbn [perform_all]. destruct (perform o c) as [effects c']. cbn [fst snd].
  by destruct (perform_all l c') as [effects' c''].
Qed.

Lemma answers_of_perform o c :
  answers_of (perform o c).1
  = match o with
    | Serve _ => [ErrorBlock UpdatesDisabledException]
    | _ => []
    end.
Proof.
  destruct o as [present|launched|r]; simpl.
  - reflexivity.
  - by destruct (delegate c), (initializationError c).
  - by destruct r.
Qed.

(** X14: a disabled controller answers every request with its error block
    and [UpdatesDisabledException], once, in the order of the requests,
    and never invokes a success block, whatever else is done with it. *)
Theorem disabled_controller_answers (error : option string)
    (l : list operation) :
  answers_of (perform_all l (init error)).1
  = map (λ _, ErrorBlock UpdatesDisabledException) (requests_of l)
  ∧ SuccessBlock ∉ (perform_all l (init error)).1.
Proof.
  assert (G : ∀ c, answers_of (perform_all l c).1
                   = map (λ _, ErrorBlock UpdatesDisabledException)
                       (requests_of l)).
  { induction l as [|o l IH]; intros c; [reflexivity|].
    rewrite perform_all_cons. cbn [fst]. unfold answers_of at 1.
    rewrite filter_app. fold (answers_of (perform o c).1).
    fold (answers_of (perform_all l (perform o c).2).1).
    rewrite answers_of_perform, IH. by destruct o. }
  split; [apply G|]. intros Hin.
  assert (Hin' : SuccessBlock ∈ answers_of (perform_all l (init error)).1).
  { apply list_elem_of_filter. by split. }
  rewrite G in Hin'. apply list_elem_of_fmap in Hin' as (r & Hr & _).
  discriminate.
Qed.

Lemma perform_keeps o c :
  isEmergencyLaunch (perform o c).2 = isEmergencyLaunch c
  ∧ initializationError (perform o c).2 = initializationError c
  ∧ current_launcher (perform o c).2
    = last_started [o] (current_launcher c)
  ∧ ∀ e, LoggedError e ∈ (perform o c).1 → initializationError c = Some e.
Proof.
  destruct o as [present|launched|r].
  - simpl. split; [done|]. split; [done|]. split; [done|].
    intros e Hin. by apply elem_of_nil in Hin.
  - simpl. split; [done|]. split; [done|]. split; [done|].
    intros e [Hin|Hin]%elem_of_app.
    + destruct (delegate c);
        [apply list_elem_of_singleton in Hin; discriminate
        | by apply elem_of_nil in Hin].
    + destruct (initializationError c);
        [apply list_elem_of_singleton in Hin; congruence
        | by apply elem_of_nil in Hin].
  - assert (E : perform (Serve r) c = ([ErrorBlock UpdatesDisabledException], c))
      by (by destruct r).
    rewrite E. simpl. split; [done|]. split; [done|]. split; [done|].
    intros e Hin. apply list_elem_of_singleton in Hin. discriminate.
Qed.

Lemma last_started_cons o l before :
  last_started (o :: l) before = last_started l (last_started [o] before).
Proof. by destruct o. Qed.

Lemma controller_invariant (l : list operation) (c : controller) :
  let c' := (perform_all l c).2 in
  isEmergencyLaunch c' = isEmergencyLaunch c
  ∧ initializationError c' = initializationError c
  ∧ current_launcher c' = last_started l (current_launcher c)
  ∧ ∀ e, LoggedError e ∈ (perform_all l c).1 → initializationError c = Some e.
Proof.
  revert c. induction l as [|o l IH]; intros c.
  - simpl. repeat split. intros e Hin. by apply elem_of_nil in Hin.
  - rewrite perform_all_cons. cbn [fst snd].
    destruct (IH (perform o c).2) as (H1 & H2 & H3 & H4).
    destruct (perform_keeps o c) as (K1 & K2 & K3 & K4).
    rewrite H1, H2, H3, K1, K2, K3, (last_started_cons o l).
    split; [done|]. split; [done|]. split; [done|].
    intros e [Hin|Hin]%elem_of_app; [by apply K4|].
    apply H4 in Hin. by rewrite K2 in Hin.
Qed.

(** X15: whatever is done with a disabled controller, its constants
    report updates as disabled, report an emergency launch exactly when
    the controller was created with an error, and take the launched
    update, the embedded-assets flag and the asset map from the launcher
    of the last [start()], or show none before the first; and the only
    error ever written to the log is the one given at creation. *)
Theorem disabled_controller_constants (error : option string)
    (l : list operation) :
  let c := (perform_all l (init error)).2 in
  let k := getConstantsForModule c in
  const_isEnabled k = false
  ∧ (const_isEmergencyLaunch k = true ↔ error ≠ None)
  ∧ const_launchedUpdate k = last_started l None ≫= launchedUpdate
  ∧ const_isUsingEmbeddedAssets k
    = default false (isUsingEmbeddedAssets <$> last_started l None)
  ∧ const_assetFilesMap k = last_started l None ≫= assetFilesMap
  ∧ ∀ e, LoggedError e ∈ (perform_all l (init error)).1 → error = Some e.
Proof.
  intros c k. subst k c.
  destruct (controller_invariant l (init error)) as (H1 & H2 & H3 & H4).
  unfold getConstantsForModule. simpl. rewrite H1, H3. simpl.
  split; [done|]. split; [apply bool_decide_eq_true|]. by repeat split.
Qed.

Lemma disabled_controller_constants_witness :
  let l := [SetDelegate true;
            Start {| launchedUpdate := None; launchAssetUrl := None;
                     isUsingEmbeddedAssets := false; assetFilesMap := None |};
            Serve CheckForUpdate] in
  const_isEmergencyLaunch
    (getConstantsForModule (perform_all l (init (Some "no database"))).2)
  = true.
Proof.
  intros l.
  apply (proj2 (proj1 (proj2 (disabled_controller_constants
                                (Some "no database") l)))).
  discriminate.
Defined.

End UpdatesFacts.

(** ** Worked examples *)

Example ensurePictureOptions_null :
  ensurePictureOptions VNull initial = ({["quality" := VNum 1]}, initial).
Proof. reflexivity. Qed.

Example ensurePictureOptions_callback :
  ensurePictureOptions
    (VObj {["quality" := VNum 0; "onPictureSaved" := VFun 3]}) initial
  = ({["quality" := VNum 1; "onPictureSaved" := VFun 3;
       "id" := VNum 1; "fastMode" := VBool true]},
     {| _PICTURE_SAVED_CALLBACKS := {[1 := VFun 3]};
        _GLOBAL_PICTURE_ID := 2 |}).
Proof. vm_compute. reflexivity. Qed.

Example ensureRecordingOptions_number :
  ensureRecordingOptions (VNum 5) = VObj ∅.
Proof. reflexivity. Qed.

Example picture_saved_twice :
  (run [TakePicture (VObj {["onPictureSaved" := VFun 3]});
        PictureSaved 1 (VStr "a.jpg") Returns;
        PictureSaved 1 (VStr "a.jpg") Returns]
     initial).1
  = [(1, 3%nat, VStr "a.jpg", Returns)].
Proof. vm_compute. reflexivity. Qed.

Example picture_saved_not_callable :
  _onPictureSaved 1 VNull Returns
    {| _PICTURE_SAVED_CALLBACKS := {[1 := VNum 5]}; _GLOBAL_PICTURE_ID := 2 |}
  = ([], Throw TypeError).
Proof. reflexivity. Qed.

Example prepare_picture_frozen :
  prepare_picture Frozen (VObj ∅) initial = (Throw TypeError, initial).
Proof. reflexivity. Qed.

Example prepare_picture_frozen_with_callback :
  prepare_picture Frozen
    (VObj {["quality" := VNum 1; "onPictureSaved" := VFun 3]}) initial
  = (Throw TypeError,
     {| _PICTURE_SAVED_CALLBACKS := {[1 := VFun 3]};
        _GLOBAL_PICTURE_ID := 2 |}).
Proof. vm_compute. reflexivity. Qed.

Example prepare_picture_not_extensible :
  prepare_picture NonExtensible (VObj {["quality" := VNum 0]}) initial
  = (Normal {["quality" := VNum 1]}, initial).
Proof. vm_compute. reflexivity. Qed.

Example detection_at_the_limit :
  let qr := {| bc_type := "qr"; bc_data := "expo" |} in
  let seen := (_onObjectDetected (Some 7%nat) qr Returns 1000 1001 mounted).2 in
  throttled qr 1500 seen = true ∧ throttled qr 1501 seen = false.
Proof. split; reflexivity. Qed.

Example detection_of_proto :
  let e := {| bc_type := "__proto__"; bc_data := "expo" |} in
  _onObjectDetected (Some 7%nat) e Returns 1000 1001 mounted
  = ([(7%nat, e)], mounted).
Proof. reflexivity. Qed.

Example bridge_scenario :
  Bridge.trace
    (Bridge.run
       [Bridge.Create; Bridge.Submit 0 "setViewport" false;
        Bridge.Submit 0 "clear" true; Bridge.Dispatch 0 (inl 0);
        Bridge.Destroy 0; Bridge.Submit 0 "drawArrays" true;
        Bridge.Dispatch 0 (inl 0)]
       Bridge.empty_bridge)
  = [Bridge.Submitted {| Bridge.cmd_context := 0; Bridge.cmd_op := "setViewport";
                         Bridge.cmd_seq := 0; Bridge.cmd_channel := false |};
     Bridge.Submitted {| Bridge.cmd_context := 0; Bridge.cmd_op := "clear";
                         Bridge.cmd_seq := 1; Bridge.cmd_channel := true |};
     Bridge.Executed {| Bridge.cmd_context := 0; Bridge.cmd_op := "setViewport";
                        Bridge.cmd_seq := 0; Bridge.cmd_channel := false |};
     Bridge.Disposed 0;
     Bridge.Resolved {| Bridge.cmd_context := 0; Bridge.cmd_op := "clear";
                        Bridge.cmd_seq := 1; Bridge.cmd_channel := true |}
       Bridge.ContextLost;
     Bridge.Released 0].
Proof. vm_compute. reflexivity. Qed.
